(** * Critical Path Method engine of [index.py]

    A shallow embedding of the two scheduling functions of the program,
    [find_earliest_latest_start_finish] and [calculate_critical_path],
    together with the guard of their caller [on_calculate_and_draw].

    - Python [int] is [Z].
    - [task_dict] is an insertion-ordered dictionary: its iteration order
      seeds the queue of Kahn's algorithm and fixes the order of the
      adjacency lists, so it is kept as an association list with Python's
      [d[k] = v] semantics (an existing key keeps its position).
    - [start_dates], [end_dates], [latest_start], [latest_finish] are used
      as plain maps ([gmap string Z]).
    - [indegrees] and [adj_list] are [defaultdict]s: a [gmap] read with the
      default of the factory ([0] and [[]]).
    - Exceptions are explicit: the code can only raise [KeyError] (a
      subscript on a plain dict) and [ValueError] ([max] of an empty
      sequence).  The [while] loop runs on fuel; [OutOfFuel] is the outcome
      of an exhausted budget and is shown never to occur. *)

From Stdlib Require Import Ascii.
From stdpp Require Import gmap strings list fin_maps relations finite.

Open Scope Z_scope.

(** ** Outcomes *)

Inductive exn :=
  | KeyError (k : string)
  | ValueError.

Inductive outcome (A : Type) :=
  | Ok (a : A)
  | Raise (e : exn)
  | OutOfFuel.
Arguments Ok {A} a.
Arguments Raise {A} e.
Arguments OutOfFuel {A}.

Definition bind {A B} (m : outcome A) (k : A → outcome B) : outcome B :=
  match m with
  | Ok a => k a
  | Raise e => Raise e
  | OutOfFuel => OutOfFuel
  end.

Notation "x <- m ;; k" := (bind m (λ x, k))
  (at level 100, m at next level, right associativity).

Fixpoint mapM {A B} (f : A → outcome B) (l : list A) : outcome (list B) :=
  match l with
  | [] => Ok []
  | x :: r => y <- f x ;; ys <- mapM f r ;; Ok (y :: ys)
  end.

(** ** Input rows and [task_dict] *)

(** A row of the table: [(task, depends, duration, _, _, _, _)].  The four
    trailing display columns are bound to [_] by both functions and never
    read, so they are left out.  [int(duration)] is the identity on an
    integer cell. *)
Record row := Row { task : string; depends : string; duration : Z }.

(** [s.split(', ')]: cut at every leftmost, non-overlapping [", "]. *)
Fixpoint split_on (cur s : string) : list string :=
  match s with
  | EmptyString => [cur]
  | String c s' =>
      match s' with
      | EmptyString => [cur +:+ String c EmptyString]
      | String c' s'' =>
          if (Ascii.eqb c ","%char && Ascii.eqb c' " "%char)%bool
          then cur :: split_on EmptyString s''
          else split_on (cur +:+ String c EmptyString) s'
      end
  end.

Definition split (s : string) : list string := split_on EmptyString s.

(** The value stored under a task name:
    [{'depends': ..., 'duration': ...}]. *)
Record info := Info { info_depends : list string; info_duration : Z }.

(** [depends.split(', ') if depends != '-' else []] *)
Definition parse_depends (s : string) : list string :=
  if String.eqb s "-" then [] else split s.

Definition row_info (r : row) : info :=
  {| info_depends := parse_depends (depends r); info_duration := duration r |}.

(** Insertion-ordered dictionary. *)
Definition dict (V : Type) := list (string * V).

Fixpoint dict_get {V} (k : string) (d : dict V) : option V :=
  match d with
  | [] => None
  | (k', v) :: d' => if String.eqb k k' then Some v else dict_get k d'
  end.

Fixpoint dict_set {V} (k : string) (v : V) (d : dict V) : dict V :=
  match d with
  | [] => [(k, v)]
  | (k', v') :: d' =>
      if String.eqb k k' then (k', v) :: d' else (k', v') :: dict_set k v d'
  end.

Definition keys {V} (d : dict V) : list string := d.*1.

(** The dict comprehension at the head of both functions. *)
Definition task_dict (tasks : list row) : dict info :=
  foldl (λ d r, dict_set (task r) (row_info r) d) [] tasks.

(** [d[k]] on a plain dict. *)
Definition getitem {V} (d : dict V) (k : string) : outcome V :=
  match dict_get k d with
  | Some v => Ok v
  | None => Raise (KeyError k)
  end.

Definition getmap (m : gmap string Z) (k : string) : outcome Z :=
  match m !! k with
  | Some v => Ok v
  | None => Raise (KeyError k)
  end.

(** ** Dependency graph *)

(** [indegrees[k]] and [adj_list[k]] of the two [defaultdict]s. *)
Definition indeg (indegrees : gmap string Z) (k : string) : Z :=
  default 0 (indegrees !! k).

Definition succs (adj_list : gmap string (list string)) (k : string)
  : list string :=
  default [] (adj_list !! k).

Definition graph : Type := gmap string (list string) * gmap string Z.

(** [adj_list[dep].append(task); indegrees[task] += 1] *)
Definition add_edge (t : string) (g : graph) (dep : string) : graph :=
  (<[dep := succs g.1 dep ++ [t]]> g.1, <[t := indeg g.2 t + 1]> g.2).

Definition add_task (g : graph) (e : string * info) : graph :=
  foldl (add_edge e.1) g (info_depends e.2).

Definition build_graph (td : dict info) : graph :=
  foldl add_task (∅, ∅) td.

(** ** Kahn's algorithm *)

(** The inner [for neighbor in adj_list[task]] loop. *)
Fixpoint relax (nbrs : list string) (indegrees : gmap string Z)
    (queue : list string) : gmap string Z * list string :=
  match nbrs with
  | [] => (indegrees, queue)
  | n :: rest =>
      let indegrees' := <[n := indeg indegrees n - 1]> indegrees in
      if indeg indegrees' n =? 0
      then relax rest indegrees' (queue ++ [n])
      else relax rest indegrees' queue
  end.

(** The [while zero_indegree_queue] loop; one unit of fuel per pass. *)
Fixpoint kahn (fuel : nat) (adj_list : gmap string (list string))
    (indegrees : gmap string Z) (queue topo_order : list string)
  : option (list string) :=
  match queue with
  | [] => Some topo_order
  | t :: queue' =>
      match fuel with
      | O => None
      | S fuel' =>
          let '(indegrees', queue'') := relax (succs adj_list t) indegrees queue' in
          kahn fuel' adj_list indegrees' queue'' (topo_order ++ [t])
      end
  end.

(** [[task for task in task_dict if indegrees[task] == 0]] *)
Definition zero_indegree_queue (td : dict info) (indegrees : gmap string Z)
  : list string :=
  filter (λ t, indeg indegrees t = 0) (keys td).

(** Every pass of the loop moves one task name into [topo_order]; the
    number of task names bounds the number of passes. *)
Definition topo_sort (td : dict info) : option (list string) :=
  let '(adj_list, indegrees) := build_graph td in
  kahn (length td) adj_list indegrees (zero_indegree_queue td indegrees) [].

Definition topo_order (td : dict info) : outcome (list string) :=
  match topo_sort td with
  | Some l => Ok l
  | None => OutOfFuel
  end.

(** ** Forward pass *)

(** [max] of a sequence of integers. *)
Definition py_max (l : list Z) : outcome Z :=
  match l with
  | [] => Raise ValueError
  | x :: r => Ok (foldl Z.max x r)
  end.

Definition schedule2 : Type := gmap string Z * gmap string Z.

Definition forward_step (td : dict info) (acc : schedule2) (t : string)
  : outcome schedule2 :=
  let '(start_dates, end_dates) := acc in
  i <- getitem td t ;;
  s <- match info_depends i with
       | [] => Ok 0
       | deps => efs <- mapM (getmap end_dates) deps ;; py_max efs
       end ;;
  Ok (<[t := s]> start_dates, <[t := s + info_duration i]> end_dates).

Fixpoint forward_pass (td : dict info) (topo : list string) (acc : schedule2)
  : outcome schedule2 :=
  match topo with
  | [] => Ok acc
  | t :: rest => acc' <- forward_step td acc t ;; forward_pass td rest acc'
  end.

(** ** Backward pass *)

(** [{task: end_dates[task] - task_dict[task]['duration'] for task in end_dates}] *)
Definition init_latest_start (td : dict info) (end_dates : gmap string Z)
  : outcome (gmap string Z) :=
  l <- mapM (λ kv : string * Z,
               i <- getitem td kv.1 ;; Ok (kv.1, kv.2 - info_duration i))
            (map_to_list end_dates) ;;
  Ok (list_to_map l).

(** [latest_finish[task] = min(latest_finish[task], latest_start[successor])] *)
Fixpoint fold_successors (t : string) (latest_start : gmap string Z)
    (ss : list string) (latest_finish : gmap string Z)
  : outcome (gmap string Z) :=
  match ss with
  | [] => Ok latest_finish
  | s :: rest =>
      a <- getmap latest_finish t ;;
      b <- getmap latest_start s ;;
      fold_successors t latest_start rest (<[t := Z.min a b]> latest_finish)
  end.

Definition backward_step (td : dict info) (adj_list : gmap string (list string))
    (acc : schedule2) (t : string) : outcome schedule2 :=
  let '(latest_start, latest_finish) := acc in
  latest_finish' <- fold_successors t latest_start (succs adj_list t) latest_finish ;;
  f <- getmap latest_finish' t ;;
  i <- getitem td t ;;
  Ok (<[t := f - info_duration i]> latest_start, latest_finish').

Fixpoint backward_pass (td : dict info) (adj_list : gmap string (list string))
    (rtopo : list string) (acc : schedule2) : outcome schedule2 :=
  match rtopo with
  | [] => Ok acc
  | t :: rest =>
      acc' <- backward_step td adj_list acc t ;;
      backward_pass td adj_list rest acc'
  end.

(** The part the two functions share, up to the end of the backward pass:
    lines 99-143 of [calculate_critical_path] and lines 208-254 of
    [find_earliest_latest_start_finish] are the same statements. *)
Record times := Times {
  t_topo : list string;
  t_start : gmap string Z;
  t_end : gmap string Z;
  t_latest_start : gmap string Z;
  t_latest_finish : gmap string Z
}.

Definition compute_times (td : dict info) : outcome times :=
  topo <- topo_order td ;;
  fw <- forward_pass td topo (∅, ∅) ;;
  let '(start_dates, end_dates) := fw in
  let latest_finish := end_dates in
  latest_start <- init_latest_start td end_dates ;;
  bw <- backward_pass td (build_graph td).1 (reverse topo)
          (latest_start, latest_finish) ;;
  Ok (Times topo start_dates end_dates bw.1 bw.2).

Definition find_earliest_latest_start_finish (tasks : list row)
  : outcome (gmap string Z * gmap string Z * gmap string Z * gmap string Z) :=
  tm <- compute_times (task_dict tasks) ;;
  Ok (t_start tm, t_end tm, t_latest_start tm, t_latest_finish tm).

(** ** Critical path *)

Fixpoint critical_loop (td : dict info) (end_dates : gmap string Z)
    (rtopo : list string) (critical_path : list string) (end_time : Z)
  : outcome (list string * Z) :=
  match rtopo with
  | [] => Ok (critical_path, end_time)
  | t :: rest =>
      f <- getmap end_dates t ;;
      if f =? end_time
      then i <- getitem td t ;;
           critical_loop td end_dates rest (critical_path ++ [t])
             (end_time - info_duration i)
      else critical_loop td end_dates rest critical_path end_time
  end.

Definition end_values (end_dates : gmap string Z) : list Z :=
  (map_to_list end_dates).*2.

Definition calculate_critical_path (tasks : list row)
  : outcome (list string * Z) :=
  let td := task_dict tasks in
  tm <- compute_times td ;;
  end_time <- py_max (end_values (t_end tm)) ;;
  cp <- critical_loop td (t_end tm) (reverse (t_topo tm)) [] end_time ;;
  longest <- py_max (end_values (t_end tm)) ;;
  Ok (reverse cp.1, longest).

(** ** The caller

    [on_calculate_and_draw] returns at once on an empty table; otherwise it
    runs both functions and redraws from their results.  The redraw is
    represented by the value handed to the widgets. *)
Definition on_calculate_and_draw (tasks : list row)
  : outcome (option ((gmap string Z * gmap string Z * gmap string Z * gmap string Z)
                     * (list string * Z))) :=
  match tasks with
  | [] => Ok None
  | _ =>
      sched <- find_earliest_latest_start_finish tasks ;;
      cp <- calculate_critical_path tasks ;;
      Ok (Some (sched, cp))
  end.

(** * Specification vocabulary *)

(** ** Well-formed inputs *)

Definition names (tasks : list row) : list string := task <$> tasks.

Definition deps_of (r : row) : list string := parse_depends (depends r).

(** [depends_on tasks t d]: the row of task [t] lists [d] as a dependency. *)
Definition depends_on (tasks : list row) (t d : string) : Prop :=
  ∃ r, r ∈ tasks ∧ task r = t ∧ d ∈ deps_of r.

Definition duplicate_free (tasks : list row) : Prop := NoDup (names tasks).

Definition resolvable (tasks : list row) : Prop :=
  ∀ t d, depends_on tasks t d → d ∈ names tasks.

Definition acyclic (tasks : list row) : Prop :=
  ∀ t, ¬ tc (depends_on tasks) t t.

Record valid (tasks : list row) : Prop := Valid {
  valid_duplicate_free : duplicate_free tasks;
  valid_resolvable : resolvable tasks;
  valid_acyclic : acyclic tasks
}.

(** The dependency list the program holds for a name ([[]] for a name that
    is not a task). *)
Definition deps (td : dict info) (t : string) : list string :=
  match dict_get t td with
  | Some i => info_depends i
  | None => []
  end.

Definition dur (td : dict info) (t : string) : Z :=
  match dict_get t td with
  | Some i => info_duration i
  | None => 0
  end.

(** Number of occurrences of a name in a list. *)
Fixpoint occ (x : string) (l : list string) : nat :=
  match l with
  | [] => O
  | y :: r => if decide (x = y) then S (occ x r) else occ x r
  end.

(** Dependencies of [t] that are not yet in [done], with multiplicity. *)
Definition pending (td : dict info) (done : list string) (t : string) : nat :=
  length (filter (λ d, d ∉ done) (deps td t)).

(** [sorted td l]: every element of [l] has its dependencies to its left. *)
Definition sorted (td : dict info) (l : list string) : Prop :=
  ∀ l1 t l2, l = l1 ++ t :: l2 → ∀ d, d ∈ deps td t → d ∈ l1.

(** ** Results *)

(** Sum of the durations of a list of rows. *)
Fixpoint total_duration (rs : list row) : Z :=
  match rs with
  | [] => 0
  | r :: rest => duration r + total_duration rest
  end.

(** [unscheduled tasks t]: Kahn's loop ends without [t]; whatever
    [find_earliest_latest_start_finish] returns has no entry for [t] and it
    can fail with a [KeyError] only; whatever [calculate_critical_path]
    returns does not list [t]. *)
Definition unscheduled (tasks : list row) (t : string) : Prop :=
  (∃ l, topo_order (task_dict tasks) = Ok l ∧ t ∉ l)
  ∧ match find_earliest_latest_start_finish tasks with
    | Ok (es, ef, ls, lf) =>
        es !! t = None ∧ ef !! t = None ∧ ls !! t = None ∧ lf !! t = None
    | Raise (KeyError _) => True
    | _ => False
    end
  ∧ match calculate_critical_path tasks with
    | Ok (cp, _) => t ∉ cp
    | Raise _ => True
    | OutOfFuel => False
    end.

(** Executable check of [valid]: distinct names, every dependency a task
    name, and every task reached by Kahn's loop. *)
Definition validb (tasks : list row) : bool :=
  bool_decide (NoDup (names tasks))
  && forallb (λ r, forallb (λ d, bool_decide (d ∈ names tasks)) (deps_of r)) tasks
  && match topo_order (task_dict tasks) with
     | Ok l => forallb (λ r, bool_decide (task r ∈ l)) tasks
     | _ => false
     end.

Definition sample : list row :=
  [ Row "T1" "-" 5; Row "T2" "T1" 3; Row "T3" "T1" 2; Row "T4" "T2, T3" 4 ].

Definition two_independent : list row :=
  [ Row "A" "-" 3; Row "B" "-" 5 ].

Definition cyclic_input : list row :=
  [ Row "C" "-" 1; Row "A" "B" 1; Row "B" "A" 1 ].

Definition dangling_input : list row :=
  [ Row "A" "-" 1; Row "B" "X" 2 ].

(** ** Predicates used in the proofs *)

(** The dependency relation the program works with. *)
Definition dep (td : dict info) (t d : string) : Prop := d ∈ deps td t.

(** Sum of [f] over the entries stored under [k]. *)
Fixpoint sum_on (f : info → nat) (k : string) (es : dict info) : nat :=
  match es with
  | [] => O
  | (k', i) :: r => ((if decide (k = k') then f i else O) + sum_on f k r)%nat
  end.

(** The loop invariant of Kahn's algorithm: the ordered and queued names
    are distinct task names, [indegrees] counts the dependencies that are
    not ordered yet, a task is ordered or queued exactly when none is left,
    and the order built so far is sorted. *)
Record kahn_inv (td : dict info) (ind : gmap string Z) (q topo : list string)
  : Prop := {
  ki_nodup : NoDup (topo ++ q);
  ki_keys : ∀ t, t ∈ topo ++ q → t ∈ keys td;
  ki_indeg : ∀ t, indeg ind t = Z.of_nat (pending td topo t);
  ki_ready : ∀ t, t ∈ keys td → (t ∈ topo ++ q ↔ pending td topo t = O);
  ki_sorted : sorted td topo
}.

(** What Kahn's algorithm returns, for every table with distinct keys. *)
Record topo_spec (td : dict info) (l : list string) : Prop := {
  ts_nodup : NoDup l;
  ts_keys : ∀ t, t ∈ l → t ∈ keys td;
  ts_ready : ∀ t, t ∈ keys td → (t ∈ l ↔ ∀ d, d ∈ deps td t → d ∈ l);
  ts_sorted : sorted td l
}.

Fixpoint chain (R : relation string) (x : string) (p : list string) : Prop :=
  match p with
  | [] => True
  | y :: p' => R x y ∧ chain R y p'
  end.

(** The forward equations at task [t], read in the final maps. *)
Definition earliest (td : dict info) (sd ed : gmap string Z) (t : string) : Prop :=
  ∃ s, sd !! t = Some s
    ∧ ed !! t = Some (s + dur td t)
    ∧ (deps td t = [] → s = 0)
    ∧ (deps td t ≠ [] →
         (∀ d, d ∈ deps td t → ∃ f, ed !! d = Some f ∧ f ≤ s)
         ∧ (∃ d, d ∈ deps td t ∧ ed !! d = Some s)).

Record fwd_inv (td : dict info) (done : list string) (sd ed : gmap string Z)
  : Prop := {
  fi_start : ∀ t, t ∈ done ↔ is_Some (sd !! t);
  fi_end : ∀ t, t ∈ done ↔ is_Some (ed !! t);
  fi_eqs : ∀ t, t ∈ done → earliest td sd ed t
}.

(** An outcome is either the value [a] or the [KeyError] of a name in [P]. *)
Definition ok_or_missing {A} (P : string → Prop) (a : A) (o : outcome A) : Prop :=
  o = Ok a ∨ ∃ k, P k ∧ o = Raise (KeyError k).

(** A successor of an ordered task that is not ordered itself. *)
Definition dangling (td : dict info) (l : list string) (k : string) : Prop :=
  (k ∉ l) ∧ ∃ t, t ∈ l ∧ t ∈ deps td k.

Record times_spec (td : dict info) (l : list string) (sd ed : gmap string Z)
  : Prop := {
  tm_topo : topo_order td = Ok l;
  tm_order : topo_spec td l;
  tm_fwd : fwd_inv td l sd ed;
  tm_out : ok_or_missing (dangling td l) (Times l sd ed sd ed) (compute_times td)
}.

(** Sum of the durations the program holds for the names of a path. *)
Fixpoint path_duration (td : dict info) (cp : list string) : Z :=
  match cp with
  | [] => 0
  | t :: rest => dur td t + path_duration td rest
  end.

(** The tail of [calculate_critical_path], after the shared computation. *)
Definition extract (td : dict info) (tm : times) : outcome (list string * Z) :=
  end_time <- py_max (end_values (t_end tm)) ;;
  cp <- critical_loop td (t_end tm) (reverse (t_topo tm)) [] end_time ;;
  longest <- py_max (end_values (t_end tm)) ;;
  Ok (reverse cp.1, longest).

(** * The rest of the program *)

(** ** Joining names

    [', '.join(l)], the inverse of [split]. *)
Fixpoint join (l : list string) : string :=
  match l with
  | [] => ""
  | x :: rest =>
      match rest with
      | [] => x
      | _ => x +:+ ", " +:+ join rest
      end
  end.

(** [sep_free p]: the separator [", "] does not occur in [p]. *)
Definition sep_free (p : string) : Prop :=
  ∀ a b, p ≠ a +:+ ", " +:+ b.

(** ** [draw_gantt_chart]: the bars (lines 160-177)

    The chart does not take its bars from the engine; it recomputes them in
    table order.  The dictionary the function calls [start_dates] holds the
    end date of every row seen so far, read with [.get(dep, 0)]. *)
Record bar := Bar { bar_task : string; bar_start : Z; bar_finish : Z }.

(** [start_dates.get(dep, 0)] *)
Definition get_or_zero (start_dates : gmap string Z) (dep : string) : Z :=
  default 0 (start_dates !! dep).

Definition gantt_step (acc : list bar * gmap string Z) (r : row)
  : outcome (list bar * gmap string Z) :=
  let '(gantt_data, start_dates) := acc in
  start_date <- (if String.eqb (depends r) "-" then Ok 0
                 else py_max (get_or_zero start_dates <$> split (depends r))) ;;
  let end_date := start_date + duration r in
  Ok (gantt_data ++ [Bar (task r) start_date end_date],
      <[task r := end_date]> start_dates).

Fixpoint gantt_loop (tasks : list row) (acc : list bar * gmap string Z)
  : outcome (list bar * gmap string Z) :=
  match tasks with
  | [] => Ok acc
  | r :: rest => acc' <- gantt_step acc r ;; gantt_loop rest acc'
  end.

Definition gantt_data (tasks : list row) : outcome (list bar) :=
  acc <- gantt_loop tasks ([], ∅) ;; Ok acc.1.

(** [color = 'red' if row['Task'] in critical_path else '#6a5acd'] *)
Definition bar_is_red (critical_path : list string) (b : bar) : bool :=
  bool_decide (bar_task b ∈ critical_path).

(** ** [get_task_dependencies] (lines 71-77) and [delete_task] (lines 325-338)

    The table is the list of the rows of the widget, in display order; an
    item is named by its position.  [get_task_dependencies] returns a set,
    of which [delete_task] only tests emptiness; the names are listed in
    table order. *)
Definition get_task_dependencies (table : list row) (task_name : string)
  : list string :=
  task <$> filter (λ r, task_name ∈ split (depends r)) table.

Inductive delete_outcome :=
  | NoSelection                       (* warning "No Selection" *)
  | ItemNotFound                      (* the widget has no such item *)
  | CannotDelete (task_name : string) (* warning "Cannot Delete" *)
  | Deleted (table : list row).       (* the rows left in the table *)

(** The [for item in selected_items] loop: the first selected task that
    some row lists as a dependency stops the deletion. *)
Fixpoint check_selection (table : list row) (selected_items : list nat)
  : option delete_outcome :=
  match selected_items with
  | [] => None
  | item :: rest =>
      match table !! item with
      | None => Some ItemNotFound
      | Some r =>
          match get_task_dependencies table (task r) with
          | [] => check_selection table rest
          | _ => Some (CannotDelete (task r))
          end
      end
  end.

(** [table.delete(selected_items)], on the rows from position [i] on. *)
Fixpoint remove_items (i : nat) (table : list row) (selected_items : list nat)
  : list row :=
  match table with
  | [] => []
  | r :: rest =>
      if decide (i ∈ selected_items)
      then remove_items (S i) rest selected_items
      else r :: remove_items (S i) rest selected_items
  end.

Definition delete_task (table : list row) (selected_items : list nat)
  : delete_outcome :=
  match selected_items with
  | [] => NoSelection
  | _ =>
      match check_selection table selected_items with
      | Some o => o
      | None => Deleted (remove_items 0 table selected_items)
      end
  end.

(** ** [on_calculate_and_draw]: the cells written back (lines 266-281)

    [start_dates.get(task_name, 'N/A')] and its three siblings; ['N/A'] is
    [None]. *)
Definition cells : Type := option Z * option Z * option Z * option Z.

Definition row_cells
    (sched : gmap string Z * gmap string Z * gmap string Z * gmap string Z)
    (r : row) : cells :=
  let '(start_dates, end_dates, latest_start, latest_finish) := sched in
  (start_dates !! task r, end_dates !! task r,
   latest_start !! task r, latest_finish !! task r).

Definition table_update (tasks : list row)
  : outcome (option (list (row * cells))) :=
  res <- on_calculate_and_draw tasks ;;
  Ok ((λ sc : _ * (list string * Z), (λ r, (r, row_cells sc.1 r)) <$> tasks) <$> res).

(** ** Vocabulary of the further properties *)

(** [linked es ef a cp b]: the tasks of [cp] follow one another in time
    from [a] to [b]: the first starts at [a], each next one starts when the
    one before it finishes, the last finishes at [b]. *)
Fixpoint linked (es ef : gmap string Z) (a : Z) (cp : list string) (b : Z)
  : Prop :=
  match cp with
  | [] => a = b
  | t :: rest => es !! t = Some a ∧ ∃ f, ef !! t = Some f ∧ linked es ef f rest b
  end.

(** [dep_chain tasks rs]: each row of [rs] lists the task of the row before
    it as a dependency. *)
Fixpoint dep_chain (rs : list row) : Prop :=
  match rs with
  | [] => True
  | r :: rest =>
      match rest with
      | [] => True
      | r' :: _ => task r ∈ deps_of r' ∧ dep_chain rest
      end
  end.

(** [table_ordered tasks]: every row comes after the rows of its
    dependencies. *)
Definition table_ordered (tasks : list row) : Prop :=
  ∀ a r b, tasks = a ++ r :: b → ∀ d, d ∈ deps_of r → d ∈ names a.

(** A successor of a task, as the program records it. *)
Definition successor_of (td : dict info) (t k : string) : Prop :=
  t ∈ deps td k.

(** Executable check of [table_ordered]: the dependencies of each row are
    among the names seen so far. *)
Fixpoint table_orderedb (seen : list string) (tasks : list row) : bool :=
  match tasks with
  | [] => true
  | r :: rest =>
      forallb (λ d, bool_decide (d ∈ seen)) (deps_of r)
      && table_orderedb (seen ++ [task r]) rest
  end.

(** What a bar shows for its row, against the engine's maps. *)
Definition bar_matches (es ef : gmap string Z) (r : row) (b : bar) : Prop :=
  bar_task b = task r
  ∧ es !! task r = Some (bar_start b)
  ∧ ef !! task r = Some (bar_finish b).

(** ** [on_calculate_and_draw] and what it shows (lines 258-286)

    What the window shows besides the table: the two labels and the chart.
    [None] is a widget still as the program created it.  The text of a
    label is fixed by the value it was last configured with. *)
Record display := Display {
  critical_path_label : option (list string);
  duration_label : option Z;
  chart : option (list (bar * bool))
}.

Definition initial_display : display := Display None None None.

(** [draw_gantt_chart(tasks, critical_path)]: the bars, each with whether
    it is drawn red.  The old chart is removed after the bars are
    computed. *)
Definition draw_gantt_chart (tasks : list row) (critical_path : list string)
  : outcome (list (bar * bool)) :=
  bars <- gantt_data tasks ;;
  Ok ((λ b, (b, bar_is_red critical_path b)) <$> bars).

(** What a request leaves behind: the display, the cells written into the
    rows (if that point was reached), and how the call ended. *)
Record redrawn := Redrawn {
  r_display : display;
  r_cells : option (list (row * cells));
  r_status : outcome unit
}.

(** The body of [on_calculate_and_draw], with the three functions it calls
    as arguments, so that a statement can range over what they do. *)
Definition on_calculate_and_draw_with
    (find : list row →
            outcome (gmap string Z * gmap string Z * gmap string Z * gmap string Z))
    (critical : list row → outcome (list string * Z))
    (gantt : list row → list string → outcome (list (bar * bool)))
    (d : display) (tasks : list row) : redrawn :=
  match tasks with
  | [] => Redrawn d None (Ok ())
  | _ =>
      match find tasks with
      | Raise e => Redrawn d None (Raise e)
      | OutOfFuel => Redrawn d None OutOfFuel
      | Ok sched =>
          match critical tasks with
          | Raise e => Redrawn d None (Raise e)
          | OutOfFuel => Redrawn d None OutOfFuel
          | Ok (critical_path, longest_duration) =>
              let rows := (λ r, (r, row_cells sched r)) <$> tasks in
              let labelled :=
                Display (Some critical_path) (Some longest_duration) (chart d) in
              match gantt tasks critical_path with
              | Raise e => Redrawn labelled (Some rows) (Raise e)
              | OutOfFuel => Redrawn labelled (Some rows) OutOfFuel
              | Ok bars =>
                  Redrawn (Display (Some critical_path) (Some longest_duration)
                             (Some bars))
                          (Some rows) (Ok ())
              end
          end
      end
  end.

(** [on_calculate_and_draw] as the program has it. *)
Definition redraw (d : display) (tasks : list row) : redrawn :=
  on_calculate_and_draw_with find_earliest_latest_start_finish
    calculate_critical_path draw_gantt_chart d tasks.

(** A one-task table, and the display once it has been drawn. *)
Definition only_table : list row := [ Row "Only" "-" 7 ].

Definition only_display : display :=
  r_display (redraw initial_display only_table).

(** ** The table as the widget holds it

    [save_edit] stores whatever text is typed into a cell, so a duration
    cell holds an integer or any text, and [int(duration)] (lines 102, 164
    and 211) raises [ValueError] on text that is no integer literal.
    [py_int] is Python's [int] on a string, [None] where it raises. *)
Inductive duration_cell :=
  | IntCell (n : Z)
  | TextCell (s : string).

Record raw_row := RawRow {
  raw_task : string;
  raw_depends : string;
  raw_duration : duration_cell
}.

(** [int(duration)] *)
Definition int_cell (py_int : string → option Z) (c : duration_cell)
  : outcome Z :=
  match c with
  | IntCell n => Ok n
  | TextCell s =>
      match py_int s with
      | Some n => Ok n
      | None => Raise ValueError
      end
  end.

Definition read_row (py_int : string → option Z) (r : raw_row) : outcome row :=
  n <- int_cell py_int (raw_duration r) ;;
  Ok (Row (raw_task r) (raw_depends r) n).

(** The rows in table order; the first cell that is no integer ends the
    call, before anything is computed from the rows. *)
Definition read_table (py_int : string → option Z) (table : list raw_row)
  : outcome (list row) :=
  mapM (read_row py_int) table.

Definition find_on_cells (py_int : string → option Z) (table : list raw_row)
  : outcome (gmap string Z * gmap string Z * gmap string Z * gmap string Z) :=
  tasks <- read_table py_int table ;; find_earliest_latest_start_finish tasks.

Definition critical_path_on_cells (py_int : string → option Z)
    (table : list raw_row) : outcome (list string * Z) :=
  tasks <- read_table py_int table ;; calculate_critical_path tasks.

Definition gantt_on_cells (py_int : string → option Z) (table : list raw_row)
  : outcome (list bar) :=
  tasks <- read_table py_int table ;; gantt_data tasks.

(** [bad_cell py_int table]: some duration cell of the table is no
    integer. *)
Definition bad_cell (py_int : string → option Z) (table : list raw_row) : Prop :=
  ∃ r, r ∈ table ∧ int_cell py_int (raw_duration r) = Raise ValueError.

(** * Lemmas *)

(** ** Sanity checks of the embedding *)

Example split_two : split "T2, T3" = ["T2"; "T3"].
Proof. reflexivity. Qed.

Example split_empty : split "" = [""].
Proof. reflexivity. Qed.

Example split_no_space : split "T2,T3" = ["T2,T3"].
Proof. reflexivity. Qed.

Example parse_depends_none : parse_depends "-" = [].
Proof. reflexivity. Qed.

Example task_dict_duplicate :
  keys (task_dict [Row "A" "-" 1; Row "B" "-" 2; Row "A" "B" 3]) = ["A"; "B"]
  ∧ dict_get "A" (task_dict [Row "A" "-" 1; Row "B" "-" 2; Row "A" "B" 3])
    = Some (Info ["B"] 3).
Proof. split; reflexivity. Qed.

Example topo_order_sample :
  topo_order (task_dict sample) = Ok ["T1"; "T2"; "T3"; "T4"].
Proof. vm_compute. reflexivity. Qed.

Example self_dependency_schedule :
  find_earliest_latest_start_finish [Row "A" "A" 1] = Ok (∅, ∅, ∅, ∅)
  ∧ calculate_critical_path [Row "A" "A" 1] = Raise ValueError.
Proof. split; vm_compute; reflexivity. Qed.

Example dangling_successor_raises :
  find_earliest_latest_start_finish [Row "A" "-" 1; Row "B" "A, X" 2]
  = Raise (KeyError "B").
Proof. vm_compute. reflexivity. Qed.

(** ** Ordered dictionaries *)

Section Dict.
Context {V : Type}.
Implicit Types (d : dict V) (k : string) (v : V).

Lemma eqb_decide k k' : String.eqb k k' = bool_decide (k = k').
Proof.
  destruct (String.eqb_spec k k') as [->|Hne].
  - by rewrite bool_decide_eq_true_2.
  - by rewrite bool_decide_eq_false_2.
Qed.

Lemma dict_get_Some_elem k v d : dict_get k d = Some v → (k, v) ∈ d.
Proof.
  induction d as [|[k' v'] d IH]; simpl; [done|].
  rewrite eqb_decide. case_bool_decide as Hk.
  - intros [= ->]. subst. left.
  - intros H. right. by apply IH.
Qed.

Lemma dict_get_None k d : dict_get k d = None ↔ k ∉ keys d.
Proof.
  induction d as [|[k' v'] d IH]; simpl.
  - split; [intros _; apply not_elem_of_nil|done].
  - rewrite eqb_decide. case_bool_decide as Hk.
    + subst. split; [done|]. intros H. exfalso. apply H. left.
    + rewrite IH. unfold keys. simpl. rewrite not_elem_of_cons. tauto.
Qed.

Lemma dict_get_is_Some k d : is_Some (dict_get k d) ↔ k ∈ keys d.
Proof.
  rewrite <- not_eq_None_Some, dict_get_None.
  split; [apply dec_stable|auto].
Qed.

Lemma dict_get_elem k v d : NoDup (keys d) → (k, v) ∈ d → dict_get k d = Some v.
Proof.
  induction d as [|[k' v'] d IH]; simpl.
  - intros _ H. by apply elem_of_nil in H.
  - unfold keys. simpl. rewrite NoDup_cons. intros [Hk' Hnd].
    rewrite elem_of_cons. rewrite eqb_decide. intros [[= -> ->]|Hin].
    + by rewrite bool_decide_eq_true_2.
    + case_bool_decide as Hk; [|by apply IH].
      subst. destruct Hk'. apply list_elem_of_fmap. by exists (k', v).
Qed.

Lemma dict_set_fresh k v d : k ∉ keys d → dict_set k v d = d ++ [(k, v)].
Proof.
  induction d as [|[k' v'] d IH]; simpl; [done|].
  unfold keys. simpl. rewrite not_elem_of_cons. intros [Hne Hk].
  rewrite eqb_decide, bool_decide_eq_false_2 by done.
  by rewrite IH.
Qed.

Lemma keys_dict_set_in k v d : k ∈ keys d → keys (dict_set k v d) = keys d.
Proof.
  unfold keys. induction d as [|[k' v'] d IH]; cbn [dict_set fmap list_fmap fst].
  - intros H. by apply elem_of_nil in H.
  - rewrite eqb_decide. case_bool_decide as Hk; [done|].
    rewrite elem_of_cons. intros [?|Hin]; [done|].
    cbn [fmap list_fmap fst]. by rewrite IH.
Qed.

Lemma NoDup_keys_dict_set k v d : NoDup (keys d) → NoDup (keys (dict_set k v d)).
Proof.
  intros Hnd. destruct (decide (k ∈ keys d)) as [Hin|Hin].
  - by rewrite keys_dict_set_in.
  - rewrite dict_set_fresh by done. unfold keys. rewrite fmap_app.
    apply NoDup_app. split_and!; [done| |apply NoDup_singleton].
    intros x Hx. cbn. rewrite list_elem_of_singleton. intros ->. done.
Qed.
End Dict.

Lemma task_dict_NoDup tasks : NoDup (keys (task_dict tasks)).
Proof.
  unfold task_dict.
  assert (H : ∀ d : dict info, NoDup (keys d) →
    NoDup (keys (foldl (λ d r, dict_set (task r) (row_info r) d) d tasks))).
  { induction tasks as [|r tasks IH]; simpl; [done|].
    intros d Hd. apply IH. by apply NoDup_keys_dict_set. }
  apply H. apply NoDup_nil_2.
Qed.

Lemma task_dict_duplicate_free tasks :
  duplicate_free tasks →
  task_dict tasks = (λ r, (task r, row_info r)) <$> tasks.
Proof.
  unfold task_dict, duplicate_free, names.
  assert (H : ∀ d : dict info,
    NoDup (keys d ++ (task <$> tasks)) →
    foldl (λ d r, dict_set (task r) (row_info r) d) d tasks
    = d ++ ((λ r, (task r, row_info r)) <$> tasks)).
  { induction tasks as [|r tasks IH]; simpl; intros d Hnd.
    - by rewrite app_nil_r.
    - apply NoDup_app in Hnd as (Hd & Hdisj & Hr).
      apply NoDup_cons in Hr as [Hr1 Hr2].
      rewrite dict_set_fresh.
      2:{ intros Hin. apply (Hdisj _ Hin). left. }
      rewrite IH.
      + by rewrite <- app_assoc.
      + unfold keys. rewrite fmap_app. simpl. rewrite <- app_assoc. simpl.
        apply NoDup_app. split_and!; [done| |by apply NoDup_cons].
        intros x Hx. apply Hdisj. done. }
  intros Hnd. apply (H []). done.
Qed.

Lemma task_dict_lookup tasks r :
  duplicate_free tasks → r ∈ tasks →
  dict_get (task r) (task_dict tasks) = Some (row_info r).
Proof.
  intros Hnd Hr. apply dict_get_elem; [apply task_dict_NoDup|].
  rewrite task_dict_duplicate_free by done.
  apply list_elem_of_fmap. by exists r.
Qed.

Lemma keys_task_dict tasks :
  duplicate_free tasks → keys (task_dict tasks) = names tasks.
Proof.
  intros Hnd. rewrite task_dict_duplicate_free by done.
  unfold keys, names. rewrite <- list_fmap_compose. done.
Qed.

Lemma deps_task_dict tasks r :
  duplicate_free tasks → r ∈ tasks → deps (task_dict tasks) (task r) = deps_of r.
Proof. intros Hnd Hr. unfold deps. by rewrite (task_dict_lookup _ _ Hnd Hr). Qed.

Lemma dur_task_dict tasks r :
  duplicate_free tasks → r ∈ tasks → dur (task_dict tasks) (task r) = duration r.
Proof. intros Hnd Hr. unfold dur. by rewrite (task_dict_lookup _ _ Hnd Hr). Qed.

Lemma depends_on_deps tasks t d :
  duplicate_free tasks →
  depends_on tasks t d ↔ d ∈ deps (task_dict tasks) t.
Proof.
  intros Hnd. split.
  - intros (r & Hr & <- & Hd). by rewrite deps_task_dict.
  - unfold deps. destruct (dict_get t (task_dict tasks)) as [i|] eqn:Hi.
    + intros Hd. apply dict_get_Some_elem in Hi.
      rewrite task_dict_duplicate_free in Hi by done.
      apply list_elem_of_fmap in Hi as (r & [= -> ->] & Hr).
      by exists r.
    + intros H. by apply elem_of_nil in H.
Qed.

(** ** Occurrence counts *)

Lemma occ_app x l1 l2 : occ x (l1 ++ l2) = (occ x l1 + occ x l2)%nat.
Proof. induction l1 as [|y l1 IH]; simpl; [done|]. case_decide; lia. Qed.

Lemma occ_pos x l : (0 < occ x l)%nat ↔ x ∈ l.
Proof.
  induction l as [|y l IH]; simpl.
  - split; [lia|]. intros H. by apply elem_of_nil in H.
  - rewrite elem_of_cons. case_decide; [split; [auto|lia]|]. rewrite IH. tauto.
Qed.

Lemma occ_zero x l : occ x l = O ↔ x ∉ l.
Proof. rewrite <- occ_pos. lia. Qed.

(** Adding [x] to the finished names removes its occurrences from what is
    pending. *)
Lemma pending_snoc td done x t :
  x ∉ done →
  pending td (done ++ [x]) t = (pending td done t - occ x (deps td t))%nat
  ∧ (occ x (deps td t) ≤ pending td done t)%nat.
Proof.
  intros Hx. unfold pending. induction (deps td t) as [|d l [IH1 IH2]]; simpl; [done|].
  rewrite !filter_cons.
  assert (Hiff : d ∉ (done ++ [x]) ↔ (d ∉ done) ∧ (x ≠ d)).
  { rewrite elem_of_app, list_elem_of_singleton. intuition congruence. }
  repeat case_decide; subst; simpl; first [tauto | lia].
Qed.

Lemma pending_zero td done t : pending td done t = O ↔ ∀ d, d ∈ deps td t → d ∈ done.
Proof.
  unfold pending. rewrite length_zero_iff_nil. split.
  - intros H d Hd. destruct (decide (d ∈ done)) as [|Hn]; [done|].
    assert (Hf : d ∈ filter (λ d, d ∉ done) (deps td t))
      by (apply list_elem_of_filter; done).
    rewrite H in Hf. by apply elem_of_nil in Hf.
  - intros H. apply elem_of_nil_inv. intros d Hd.
    apply list_elem_of_filter in Hd as [Hd1 Hd2]. apply Hd1, H, Hd2.
Qed.

(** ** The graph built from [task_dict] *)

Lemma indeg_insert m k v k' :
  indeg (<[k := v]> m) k' = if decide (k' = k) then v else indeg m k'.
Proof.
  unfold indeg. case_decide as H.
  - subst. by rewrite lookup_insert_eq.
  - by rewrite lookup_insert_ne.
Qed.

Lemma succs_insert (m : gmap string (list string)) k v k' :
  succs (<[k := v]> m) k' = if decide (k' = k) then v else succs m k'.
Proof.
  unfold succs. case_decide as H.
  - subst. by rewrite lookup_insert_eq.
  - by rewrite lookup_insert_ne.
Qed.

Lemma foldl_add_edge t ds g :
  (∀ k, indeg (foldl (add_edge t) g ds).2 k
        = indeg g.2 k + if decide (k = t) then Z.of_nat (length ds) else 0)
  ∧ (∀ d n, occ n (succs (foldl (add_edge t) g ds).1 d)
        = (occ n (succs g.1 d) + if decide (n = t) then occ d ds else O)%nat).
Proof.
  revert g. induction ds as [|x ds IH]; intros g; simpl.
  - split; intros; case_decide; lia.
  - destruct (IH (add_edge t g x)) as [IH1 IH2]. split.
    + intros k. rewrite IH1. unfold add_edge. simpl. rewrite indeg_insert.
      case_decide; subst; lia.
    + intros d n. rewrite IH2. unfold add_edge. simpl. rewrite succs_insert.
      destruct (decide (d = x)) as [->|Hdx].
      * rewrite occ_app. simpl. repeat case_decide; subst; try done; lia.
      * repeat case_decide; subst; try done; lia.
Qed.

Lemma sum_on_NoDup f k es :
  NoDup (keys es) →
  sum_on f k es = match dict_get k es with Some i => f i | None => O end.
Proof.
  unfold keys. induction es as [|[k' i] es IH]; simpl; [done|].
  rewrite NoDup_cons. intros [Hk' Hnd]. rewrite eqb_decide.
  destruct (decide (k = k')) as [->|Hne].
  - rewrite bool_decide_eq_true_2 by done.
    rewrite IH by done. apply dict_get_None in Hk'. rewrite Hk'. lia.
  - rewrite bool_decide_eq_false_2 by done. by rewrite IH.
Qed.

Lemma foldl_add_task es g :
  (∀ k, indeg (foldl add_task g es).2 k
        = indeg g.2 k + Z.of_nat (sum_on (λ i, length (info_depends i)) k es))
  ∧ (∀ d n, occ n (succs (foldl add_task g es).1 d)
        = (occ n (succs g.1 d) + sum_on (λ i, occ d (info_depends i)) n es)%nat).
Proof.
  revert g. induction es as [|[t i] es IH]; intros g; simpl.
  - split; intros; lia.
  - destruct (IH (add_task g (t, i))) as [IH1 IH2].
    destruct (foldl_add_edge t (info_depends i) g) as [E1 E2].
    split.
    + intros k. rewrite IH1. unfold add_task. simpl. rewrite E1.
      case_decide; lia.
    + intros d n. rewrite IH2. unfold add_task. simpl. rewrite E2.
      case_decide; lia.
Qed.

Section Graph.
Variable td : dict info.
Hypothesis td_NoDup : NoDup (keys td).

Lemma build_graph_indeg t :
  indeg (build_graph td).2 t = Z.of_nat (length (deps td t)).
Proof.
  unfold build_graph. destruct (foldl_add_task td (∅, ∅)) as [E _].
  rewrite E, sum_on_NoDup by done. unfold deps, indeg. simpl.
  rewrite lookup_empty. simpl. destruct (dict_get t td); simpl; lia.
Qed.

Lemma build_graph_occ d n :
  occ n (succs (build_graph td).1 d) = occ d (deps td n).
Proof.
  unfold build_graph. destruct (foldl_add_task td (∅, ∅)) as [_ E].
  rewrite E, sum_on_NoDup by done. unfold deps, succs. simpl.
  rewrite lookup_empty. simpl. destruct (dict_get n td); simpl; lia.
Qed.

Lemma elem_of_succs d n :
  n ∈ succs (build_graph td).1 d ↔ d ∈ deps td n.
Proof. by rewrite <- !occ_pos, build_graph_occ. Qed.

Lemma deps_is_key t d : d ∈ deps td t → t ∈ keys td.
Proof.
  unfold deps. destruct (dict_get t td) eqn:E.
  - intros _. apply dict_get_is_Some. by eexists.
  - intros H. by apply elem_of_nil in H.
Qed.
End Graph.

(** ** Kahn's algorithm: the inner loop *)

Lemma relax_spec nbrs : ∀ ind q,
  (∀ n, n ∈ nbrs → Z.of_nat (occ n nbrs) ≤ indeg ind n) →
  ∃ new,
    (relax nbrs ind q).2 = q ++ new
    ∧ (∀ n, indeg (relax nbrs ind q).1 n = indeg ind n - Z.of_nat (occ n nbrs))
    ∧ NoDup new
    ∧ (∀ n, n ∈ new ↔ n ∈ nbrs ∧ indeg ind n = Z.of_nat (occ n nbrs)).
Proof.
  induction nbrs as [|x rest IH]; intros ind q Hpre.
  - exists []. simpl. rewrite app_nil_r. split_and!; [done| |apply NoDup_nil_2|].
    + intros n. lia.
    + intros n. rewrite elem_of_nil. tauto.
  - cbn [relax]. set (ind1 := <[x := indeg ind x - 1]> ind).
    assert (Hind1 : ∀ m, indeg ind1 m = if decide (m = x) then indeg ind x - 1 else indeg ind m).
    { intros m. unfold ind1. apply indeg_insert. }
    assert (Hpre1 : ∀ n, n ∈ rest → Z.of_nat (occ n rest) ≤ indeg ind1 n).
    { intros n Hn. rewrite Hind1.
      assert (Hn' : n ∈ x :: rest) by (by right).
      specialize (Hpre n Hn'). simpl in Hpre.
      repeat case_decide; subst; try done; lia. }
    assert (Hx : (0 < occ x rest)%nat ↔ x ∈ rest) by apply occ_pos.
    assert (Hpx := Hpre x). simpl in Hpx. rewrite decide_True in Hpx by done.
    assert (Hpx' : Z.of_nat (S (occ x rest)) ≤ indeg ind x) by (apply Hpx; left).
    clear Hpx.
    destruct (Z.eqb_spec (indeg ind1 x) 0) as [Hz|Hz];
      rewrite Hind1, decide_True in Hz by done.
    + destruct (IH ind1 (q ++ [x]) Hpre1) as (new & Hq & Hi & Hnd & Hnew).
      exists (x :: new). split_and!.
      * rewrite Hq, <- app_assoc. done.
      * intros n. rewrite Hi, Hind1. simpl. repeat case_decide; subst; try done; lia.
      * apply NoDup_cons. split; [|done]. rewrite Hnew, Hind1.
        rewrite decide_True by done. intros [Hin Ho]. apply Hx in Hin. lia.
      * intros n. rewrite elem_of_cons, Hnew, Hind1, elem_of_cons. simpl.
        pose proof (occ_pos n rest) as Hn.
        repeat case_decide; subst; try done; split; intros ?; intuition (try lia); try (apply occ_pos; lia).
    + destruct (IH ind1 q Hpre1) as (new & Hq & Hi & Hnd & Hnew).
      exists new. split_and!; [done| |done|].
      * intros n. rewrite Hi, Hind1. simpl. repeat case_decide; subst; try done; lia.
      * intros n. rewrite Hnew, Hind1, elem_of_cons. simpl.
        pose proof (occ_pos n rest) as Hn.
        repeat case_decide; subst; try done; split; intros ?; intuition (try lia); try (apply occ_pos; lia).
Qed.

(** ** Kahn's algorithm: the outer loop *)

Lemma NoDup_length_le (l k : list string) :
  NoDup l → (∀ x, x ∈ l → x ∈ k) → (length l ≤ length k)%nat.
Proof.
  intros Hnd Hincl. apply NoDup_incl_length; [by apply NoDup_ListNoDup|].
  intros x Hx. apply list_elem_of_In, Hincl, list_elem_of_In, Hx.
Qed.

Lemma sorted_snoc td l t :
  sorted td l → (∀ d, d ∈ deps td t → d ∈ l) → sorted td (l ++ [t]).
Proof.
  intros Hs Ht l1 x l2 Heq d Hd.
  destruct l2 as [|z l2 _] using rev_ind.
  - apply app_inj_tail in Heq as [-> ->]. by apply Ht.
  - change (l ++ [t] = l1 ++ (x :: l2) ++ [z]) in Heq. rewrite app_assoc in Heq.
    apply app_inj_tail in Heq as [-> ->]. by eapply Hs.
Qed.

Section Kahn.
Variable td : dict info.
Hypothesis td_NoDup : NoDup (keys td).

Let adj := (build_graph td).1.

Lemma kahn_inv_init :
  kahn_inv td (build_graph td).2 (zero_indegree_queue td (build_graph td).2) [].
Proof.
  assert (Hp : ∀ t, pending td [] t = length (deps td t)).
  { intros t. unfold pending. induction (deps td t) as [|d l IH]; [done|].
    rewrite filter_cons, decide_True by apply not_elem_of_nil.
    cbn [length]. f_equal. exact IH. }
  unfold zero_indegree_queue. split; simpl.
  - by apply NoDup_filter.
  - intros t Ht. by apply list_elem_of_filter in Ht as [_ ?].
  - intros t. by rewrite build_graph_indeg, Hp.
  - intros t Ht. rewrite list_elem_of_filter, build_graph_indeg, Hp by done.
    split; [lia|]. intros ->. done.
  - intros l1 t l2 Heq. by destruct l1.
Qed.

Lemma kahn_inv_step ind t q topo :
  kahn_inv td ind (t :: q) topo →
  kahn_inv td (relax (succs adj t) ind q).1 (relax (succs adj t) ind q).2 (topo ++ [t]).
Proof.
  intros [Hnd Hkeys Hind Hready Hsorted].
  assert (Htopo : t ∉ topo).
  { apply NoDup_app in Hnd as (_ & Hd & _). intros Hin. apply (Hd _ Hin). left. }
  assert (Htq : t ∉ q).
  { apply NoDup_app in Hnd as (_ & _ & Hd). by apply NoDup_cons in Hd as [? _]. }
  assert (Hps : ∀ n, pending td (topo ++ [t]) n
                     = (pending td topo n - occ n (succs adj t))%nat
                   ∧ (occ n (succs adj t) ≤ pending td topo n)%nat).
  { intros n. unfold adj. rewrite build_graph_occ by done.
    by apply pending_snoc. }
  destruct (relax_spec (succs adj t) ind q) as (new & Hq & Hi & Hndn & Hnew).
  { intros n _. rewrite Hind. destruct (Hps n). lia. }
  rewrite Hq.
  assert (Hnew' : ∀ n, n ∈ new ↔
    t ∈ deps td n ∧ pending td (topo ++ [t]) n = O).
  { intros n. rewrite Hnew, Hind. unfold adj at 1. rewrite elem_of_succs by done.
    destruct (Hps n). split; intros [? ?]; split; [done|lia|done|lia]. }
  assert (Hfresh : ∀ n, n ∈ new → n ∉ topo ++ t :: q).
  { intros n Hn Hin. apply Hnew' in Hn as [Hd _].
    assert (Hk : n ∈ keys td) by (by apply Hkeys).
    apply (Hready _ Hk) in Hin. apply pending_zero with (d := t) in Hin; done. }
  split.
  - replace ((topo ++ [t]) ++ q ++ new) with ((topo ++ t :: q) ++ new)
      by (by rewrite <- !app_assoc).
    apply NoDup_app. split_and!; [done| |done].
    intros x Hx Hx'. by apply (Hfresh x).
  - intros x. rewrite !elem_of_app, list_elem_of_singleton.
    intros [[Hx| ->]|[Hx|Hx]].
    + apply Hkeys. apply elem_of_app. by left.
    + apply Hkeys. apply elem_of_app. right. left.
    + apply Hkeys. apply elem_of_app. right. by right.
    + apply Hnew' in Hx as [Hd _]. by eapply deps_is_key.
  - intros n. rewrite Hi, Hind. destruct (Hps n). lia.
  - intros n Hn. destruct (Hps n) as [Hp1 Hp2].
    specialize (Hready n Hn). rewrite elem_of_app, elem_of_cons in Hready.
    rewrite !elem_of_app, list_elem_of_singleton, Hnew'. split.
    + intros [[Hx| ->]|[Hx|[_ Hx]]]; [| | |done].
      * assert (pending td topo n = O) by (apply Hready; auto). lia.
      * assert (pending td topo t = O) by (apply Hready; auto). lia.
      * assert (pending td topo n = O) by (apply Hready; auto). lia.
    + intros Hz. destruct (decide (pending td topo n = O)) as [Hz'|Hnz].
      * apply Hready in Hz' as [?|[?|?]]; auto.
      * right. right. split; [|done].
        apply (elem_of_succs td td_NoDup). apply occ_pos. fold adj. lia.
  - apply sorted_snoc; [done|]. apply pending_zero.
    apply Hready; [|apply elem_of_app; right; left].
    apply Hkeys. apply elem_of_app. right. left.
Qed.

Lemma kahn_total fuel : ∀ ind q topo,
  kahn_inv td ind q topo →
  (length (keys td) ≤ fuel + length topo)%nat →
  ∃ l ind', kahn fuel adj ind q topo = Some l ∧ kahn_inv td ind' [] l.
Proof.
  induction fuel as [|fuel IH]; intros ind q topo Hinv Hfuel.
  - destruct q as [|t q]; [by exists topo, ind|].
    exfalso. destruct Hinv as [Hnd Hkeys _ _ _].
    pose proof (NoDup_length_le _ _ Hnd Hkeys) as Hlen.
    rewrite length_app in Hlen. simpl in *. lia.
  - destruct q as [|t q]; [by exists topo, ind|].
    cbn [kahn]. pose proof (kahn_inv_step _ _ _ _ Hinv) as Hstep.
    destruct (relax (succs adj t) ind q) as [ind' q'] eqn:Hr. simpl in Hstep.
    apply (IH _ _ _ Hstep). rewrite length_app. simpl. lia.
Qed.
End Kahn.

Lemma topo_sort_spec td :
  NoDup (keys td) → ∃ l, topo_sort td = Some l ∧ topo_spec td l.
Proof.
  intros Hnd. unfold topo_sort.
  destruct (build_graph td) as [adj ind] eqn:Hg.
  destruct (kahn_total td Hnd (length td) ind
              (zero_indegree_queue td ind) []) as (l & ind' & Hk & Hinv).
  - pose proof (kahn_inv_init td Hnd) as H. by rewrite Hg in H.
  - unfold keys. rewrite length_fmap. simpl. lia.
  - exists l. rewrite Hg in Hk. simpl in Hk. split; [done|].
    destruct Hinv as [H1 H2 H3 H4 H5]. rewrite app_nil_r in H1.
    split; [done| | |done].
    + intros t Ht. apply H2. by rewrite app_nil_r.
    + intros t Ht. rewrite <- pending_zero. specialize (H4 t Ht).
      by rewrite app_nil_r in H4.
Qed.

(** ** Order and completeness of [topo_order] *)

Lemma sorted_tc td l t x :
  sorted td l → tc (dep td) t x → ∀ l1 l2, l = l1 ++ t :: l2 → x ∈ l1.
Proof.
  intros Hs Htc. induction Htc as [t x Hd|t y x Hd _ IH]; intros l1 l2 Heq.
  - by eapply Hs.
  - assert (Hy : y ∈ l1) by (by eapply Hs).
    apply list_elem_of_split in Hy as (a & b & ->).
    assert (Hx : x ∈ a).
    { apply (IH a (b ++ t :: l2)). rewrite Heq, <- app_assoc. done. }
    apply elem_of_app. by left.
Qed.

(** A task that reaches itself through dependencies is never ordered. *)
Lemma cycle_not_ordered td l t :
  topo_spec td l → tc (dep td) t t → t ∉ l.
Proof.
  intros [Hnd _ _ Hs] Htc Hin.
  apply list_elem_of_split in Hin as (l1 & l2 & ->).
  assert (Ht : t ∈ l1) by (by eapply sorted_tc).
  apply NoDup_app in Hnd as (_ & Hd & _). apply (Hd t Ht). left.
Qed.

(** A task with a dependency outside the ordered names is not ordered. *)
Lemma missing_dep_not_ordered td l t d :
  topo_spec td l → d ∈ deps td t → d ∉ l → t ∉ l.
Proof.
  intros Hs Hd Hdl Ht. apply Hdl.
  apply (ts_ready _ _ Hs t); [|done|done]. by eapply deps_is_key.
Qed.

Lemma chain_tc_head R p : ∀ x j b, chain R x p → p !! j = Some b → tc R x b.
Proof.
  induction p as [|y p IH]; intros x j b Hc Hj; [done|].
  destruct Hc as [Hxy Hc]. destruct j as [|j]; simpl in Hj.
  - injection Hj as ->. by apply tc_once.
  - eapply tc_l; [done|]. by eapply IH.
Qed.

Lemma chain_tc R p : ∀ x i j a b,
  chain R x p → (i < j)%nat →
  (x :: p) !! i = Some a → (x :: p) !! j = Some b → tc R a b.
Proof.
  induction p as [|y p IH]; intros x i j a b Hc Hij Hi Hj.
  - destruct j as [|j]; [lia|]. done.
  - destruct j as [|j]; [lia|]. destruct i as [|i]; simpl in Hi, Hj.
    + injection Hi as ->. by eapply chain_tc_head.
    + destruct Hc as [_ Hc]. eapply (IH y i j); [done|lia|done|done].
Qed.

Lemma topo_complete td l :
  topo_spec td l →
  (∀ t d, dep td t d → d ∈ keys td) →
  (∀ t, ¬ tc (dep td) t t) →
  ∀ t, t ∈ keys td → t ∈ l.
Proof.
  intros Hs Hres Hac t Ht. destruct (decide (t ∈ l)) as [|Hnl]; [done|exfalso].
  assert (Hnext : ∀ x, x ∈ keys td → x ∉ l →
                  ∃ y, dep td x y ∧ y ∈ keys td ∧ y ∉ l).
  { intros x Hx Hxl.
    destruct (decide (Forall (λ d, d ∈ l) (deps td x))) as [Hall|Hex].
    - destruct Hxl. apply (ts_ready _ _ Hs x Hx). by apply Forall_forall.
    - apply not_Forall_Exists in Hex; [|apply _].
      apply Exists_exists in Hex as (y & Hy & Hyl).
      exists y. split_and!; [done|by eapply Hres|done]. }
  assert (Hchain : ∀ n x, x ∈ keys td → x ∉ l →
            ∃ p, length p = n ∧ chain (dep td) x p ∧ ∀ y, y ∈ p → y ∈ keys td).
  { induction n as [|n IH]; intros x Hx Hxl.
    - exists []. split_and!; [done|done|]. intros y Hy. by apply elem_of_nil in Hy.
    - destruct (Hnext x Hx Hxl) as (y & Hxy & Hy & Hyl).
      destruct (IH y Hy Hyl) as (p & Hlen & Hc & Hk).
      exists (y :: p). split_and!; [simpl; lia|done|].
      intros z Hz. apply elem_of_cons in Hz as [->|Hz]; auto. }
  destruct (Hchain (length (keys td)) t Ht Hnl) as (p & Hlen & Hc & Hk).
  destruct (list_pigeonhole (t :: p) (keys td)) as (i & j & z & Hij & Hi & Hj).
  - intros y Hy. apply elem_of_cons in Hy as [->|Hy]; auto.
  - simpl. lia.
  - apply (Hac z). by eapply chain_tc.
Qed.

(** ** [max] *)

Lemma foldl_max_spec l : ∀ x,
  (∀ y, y ∈ x :: l → y ≤ foldl Z.max x l) ∧ foldl Z.max x l ∈ x :: l.
Proof.
  induction l as [|z l IH]; intros x; simpl.
  - split; [|left]. intros y Hy. apply list_elem_of_singleton in Hy. lia.
  - destruct (IH (Z.max x z)) as [IH1 IH2]. split.
    + intros y Hy. assert (Hm : Z.max x z ≤ foldl Z.max (Z.max x z) l) by (apply IH1; left).
      rewrite !elem_of_cons in Hy. destruct Hy as [->|[->|Hy]]; [lia|lia|].
      apply IH1. by right.
    + apply elem_of_cons in IH2 as [Heq|Hin].
      * rewrite Heq. destruct (Z.max_spec x z) as [[_ ->]|[_ ->]].
        -- right. left.
        -- left.
      * right. by right.
Qed.

Lemma py_max_spec l m :
  py_max l = Ok m → (∀ y, y ∈ l → y ≤ m) ∧ m ∈ l.
Proof.
  destruct l as [|x l]; [done|]. simpl. intros [= <-]. apply foldl_max_spec.
Qed.

Lemma py_max_cons x l : ∃ m, py_max (x :: l) = Ok m.
Proof. by eexists. Qed.

(** ** Forward pass *)

Lemma mapM_ok {A B} (f : A → outcome B) (g : A → B) l :
  (∀ x, x ∈ l → f x = Ok (g x)) → mapM f l = Ok (g <$> l).
Proof.
  induction l as [|x l IH]; intros H; simpl; [done|].
  rewrite H by left. simpl. rewrite IH; [done|]. intros y Hy. apply H. by right.
Qed.

Lemma mapM_getmap (ed : gmap string Z) ds :
  (∀ d, d ∈ ds → is_Some (ed !! d)) →
  ∃ fs, mapM (getmap ed) ds = Ok fs ∧ Forall2 (λ d f, ed !! d = Some f) ds fs.
Proof.
  induction ds as [|d ds IH]; intros H; simpl.
  - by exists [].
  - destruct (H d) as [f Hf]; [left|]. destruct IH as (fs & Hfs & Hall).
    { intros x Hx. apply H. by right. }
    exists (f :: fs). unfold getmap at 1. rewrite Hf. simpl. rewrite Hfs. simpl.
    split; [done|]. by constructor.
Qed.

Lemma getitem_key td t :
  t ∈ keys td →
  ∃ i, getitem td t = Ok i ∧ info_depends i = deps td t ∧ info_duration i = dur td t.
Proof.
  intros Ht. apply dict_get_is_Some in Ht as [i Hi].
  exists i. unfold getitem, deps, dur. by rewrite Hi.
Qed.

Lemma forward_step_spec td done sd ed t :
  fwd_inv td done sd ed → t ∈ keys td → t ∉ done →
  (∀ d, d ∈ deps td t → d ∈ done) →
  ∃ sd' ed', forward_step td (sd, ed) t = Ok (sd', ed')
             ∧ fwd_inv td (done ++ [t]) sd' ed'.
Proof.
  intros [Hs He Heq] Hk Hnd Hdeps.
  destruct (getitem_key td t Hk) as (i & Hi & Hid & Hidur).
  assert (Hold : ∀ x, x ∈ done → x ≠ t) by (intros x Hx ->; done).
  assert (Hstep : ∀ s,
    (deps td t = [] → s = 0) →
    (deps td t ≠ [] →
       (∀ d, d ∈ deps td t → ∃ f, ed !! d = Some f ∧ f ≤ s)
       ∧ (∃ d, d ∈ deps td t ∧ ed !! d = Some s)) →
    fwd_inv td (done ++ [t]) (<[t := s]> sd) (<[t := s + dur td t]> ed)).
  { intros s Hs0 Hs1. split.
    - intros x. rewrite elem_of_app, list_elem_of_singleton, lookup_insert_is_Some, Hs.
      destruct (decide (t = x)); intuition.
    - intros x. rewrite elem_of_app, list_elem_of_singleton, lookup_insert_is_Some, He.
      destruct (decide (t = x)); intuition.
    - intros x. rewrite elem_of_app, list_elem_of_singleton. intros [Hx| ->].
      + destruct (Heq x Hx) as (sx & Hsx & Hex & H0 & H1).
        exists sx. rewrite !lookup_insert_ne by (apply not_eq_sym; auto).
        split_and!; [done|done|done|]. intros Hne.
        destruct (H1 Hne) as [Hall (d & Hd & Hdm)]. split.
        * intros d' Hd'. destruct (Hall d' Hd') as (f & Hf & Hle).
          exists f. rewrite lookup_insert_ne; [done|].
          intros <-. apply Hnd, He. by eexists.
        * exists d. rewrite lookup_insert_ne; [done|].
          intros <-. apply Hnd, He. by eexists.
      + exists s. rewrite !lookup_insert_eq. split_and!; [done|done|done|].
        intros Hne. destruct (Hs1 Hne) as [Hall (d & Hd & Hdm)]. split.
        * intros d' Hd'. destruct (Hall d' Hd') as (f & Hf & Hle).
          exists f. rewrite lookup_insert_ne; [done|].
          intros <-. apply Hnd, Hdeps, Hd'.
        * exists d. rewrite lookup_insert_ne; [done|].
          intros <-. apply Hnd, Hdeps, Hd. }
  unfold forward_step. rewrite Hi. cbn [bind]. rewrite Hid, Hidur.
  destruct (deps td t) as [|d0 ds] eqn:Hds.
  - cbn [bind]. eexists _, _. split; [done|]. apply Hstep; done.
  - destruct (mapM_getmap ed (d0 :: ds)) as (fs & Hfs & Hall).
    { intros d Hd. apply He, Hdeps, Hd. }
    rewrite Hfs. cbn [bind].
    destruct fs as [|f0 fs]; [by apply Forall2_length in Hall|].
    destruct (py_max_cons f0 fs) as [m Hm]. rewrite Hm. cbn [bind].
    apply py_max_spec in Hm as [Hub Hatt].
    eexists _, _. split; [done|]. apply Hstep; [done|]. intros _. split.
    + intros d Hd. apply list_elem_of_lookup in Hd as [n Hn].
      destruct (Forall2_lookup_l _ _ _ _ _ Hall Hn) as (f & Hf & Hed).
      exists f. split; [done|]. apply Hub. by eapply list_elem_of_lookup_2.
    + apply list_elem_of_lookup in Hatt as [n Hn].
      destruct (Forall2_lookup_r _ _ _ _ _ Hall Hn) as (d & Hd & Hed).
      exists d. split; [|done]. by eapply list_elem_of_lookup_2.
Qed.

Lemma forward_pass_spec td rest : ∀ done sd ed,
  fwd_inv td done sd ed →
  NoDup (done ++ rest) → sorted td (done ++ rest) →
  (∀ t, t ∈ rest → t ∈ keys td) →
  ∃ sd' ed', forward_pass td rest (sd, ed) = Ok (sd', ed')
             ∧ fwd_inv td (done ++ rest) sd' ed'.
Proof.
  induction rest as [|t rest IH]; intros done sd ed Hinv Hnd Hsorted Hkeys.
  - exists sd, ed. by rewrite app_nil_r.
  - destruct (forward_step_spec td done sd ed t Hinv) as (sd1 & ed1 & Hstep & Hinv1).
    + apply Hkeys. left.
    + apply NoDup_app in Hnd as (_ & Hd & _). intros Hin. apply (Hd _ Hin). left.
    + intros d Hd. by eapply Hsorted.
    + cbn [forward_pass]. rewrite Hstep. cbn [bind].
      replace (done ++ t :: rest) with ((done ++ [t]) ++ rest) in *
        by (by rewrite <- app_assoc).
      apply IH; [done|done|done|]. intros x Hx. apply Hkeys. by right.
Qed.

Lemma forward_pass_topo td l :
  topo_spec td l →
  ∃ sd ed, forward_pass td l (∅, ∅) = Ok (sd, ed) ∧ fwd_inv td l sd ed.
Proof.
  intros [Hnd Hkeys _ Hsorted].
  apply (forward_pass_spec td l [] ∅ ∅); [|done|done|done].
  split.
  - intros t. rewrite lookup_empty, elem_of_nil. split; [done|]. by intros [? ?].
  - intros t. rewrite lookup_empty, elem_of_nil. split; [done|]. by intros [? ?].
  - intros t Ht. by apply elem_of_nil in Ht.
Qed.

(** ** Backward pass *)

(** The comprehension that initialises [latest_start] rebuilds
    [start_dates]. *)
Lemma init_latest_start_spec td l sd ed :
  (∀ t, t ∈ l → t ∈ keys td) → fwd_inv td l sd ed →
  init_latest_start td ed = Ok sd.
Proof.
  intros Hkeys [Hs He Heq]. unfold init_latest_start.
  rewrite (mapM_ok _ (λ kv : string * Z, (kv.1, kv.2 - dur td kv.1))).
  2:{ intros [k v] Hkv. apply elem_of_map_to_list in Hkv. simpl.
      destruct (getitem_key td k) as (i & Hi & _ & Hd).
      - apply Hkeys, He. by eexists.
      - rewrite Hi. simpl. by rewrite Hd. }
  cbn [bind]. f_equal. apply map_eq. intros k.
  destruct (sd !! k) as [s|] eqn:Hsk.
  - apply elem_of_list_to_map_1.
    + rewrite <- list_fmap_compose.
      replace (fst ∘ _) with (fst : string * Z → string) by done.
      apply NoDup_fst_map_to_list.
    + assert (Hk : k ∈ l) by (apply Hs; by eexists).
      destruct (Heq k Hk) as (s' & Hs' & He' & _).
      rewrite Hsk in Hs'. injection Hs' as <-.
      apply list_elem_of_fmap. exists (k, s + dur td k). split.
      * simpl. f_equal. lia.
      * by apply elem_of_map_to_list.
  - apply not_elem_of_list_to_map_1. rewrite <- list_fmap_compose.
    replace (fst ∘ _) with (fst : string * Z → string) by done.
    intros Hin. apply list_elem_of_fmap in Hin as ([k' v] & -> & Hkv).
    apply elem_of_map_to_list in Hkv. simpl in Hsk.
    assert (Hk : is_Some (sd !! k')) by (apply Hs, He; by eexists).
    rewrite Hsk in Hk. by destruct Hk.
Qed.

Lemma ok_or_missing_weaken {A} (P Q : string → Prop) (a : A) o :
  (∀ k, P k → Q k) → ok_or_missing P a o → ok_or_missing Q a o.
Proof. intros H [?|(k & ? & ?)]; [by left|right; exists k; auto]. Qed.

Section Backward.
Variables (td : dict info) (l : list string) (sd ed : gmap string Z).
Hypothesis td_NoDup : NoDup (keys td).
Hypothesis l_keys : ∀ t, t ∈ l → t ∈ keys td.
Hypothesis fwd : fwd_inv td l sd ed.

Let adj := (build_graph td).1.

Lemma fold_successors_vacuous t ss :
  t ∈ l → (∀ s, s ∈ ss → t ∈ deps td s) →
  ok_or_missing (dangling td l) ed (fold_successors t sd ss ed).
Proof.
  intros Ht. destruct (fi_eqs _ _ _ _ fwd t Ht) as (st & Hst & Het & _).
  induction ss as [|s ss IH]; intros Hss; [by left|].
  cbn [fold_successors]. unfold getmap at 1. rewrite Het. cbn [bind].
  assert (Hts : t ∈ deps td s) by (apply Hss; left).
  unfold getmap at 1. destruct (sd !! s) as [b|] eqn:Hb; cbn [bind].
  - assert (Hs : s ∈ l) by (apply (fi_start _ _ _ _ fwd); by eexists).
    destruct (fi_eqs _ _ _ _ fwd s Hs) as (b' & Hb' & _ & _ & Hmax).
    rewrite Hb in Hb'. injection Hb' as <-.
    destruct Hmax as [Hall _].
    { intros Hnil. rewrite Hnil in Hts. by apply elem_of_nil in Hts. }
    destruct (Hall t Hts) as (f & Hf & Hle). rewrite Het in Hf. injection Hf as <-.
    rewrite Z.min_l by done. rewrite insert_id by done.
    apply IH. intros x Hx. apply Hss. by right.
  - right. exists s. split; [|done]. split; [|by exists t].
    intros Hs. apply (fi_start _ _ _ _ fwd) in Hs. rewrite Hb in Hs. by destruct Hs.
Qed.

Lemma backward_step_vacuous t :
  t ∈ l → ok_or_missing (dangling td l) (sd, ed) (backward_step td adj (sd, ed) t).
Proof.
  intros Ht. unfold backward_step.
  destruct (fold_successors_vacuous t (succs adj t) Ht) as [Hok|(k & Hk & Hr)].
  - intros s Hs. by apply (elem_of_succs td td_NoDup).
  - rewrite Hok. cbn [bind].
    destruct (fi_eqs _ _ _ _ fwd t Ht) as (st & Hst & Het & _).
    unfold getmap. rewrite Het. cbn [bind].
    destruct (getitem_key td t (l_keys t Ht)) as (i & Hi & _ & Hd).
    rewrite Hi. cbn [bind]. left. rewrite Hd.
    replace (st + dur td t - dur td t) with st by lia.
    by rewrite insert_id.
  - right. exists k. rewrite Hr. done.
Qed.

Lemma backward_pass_vacuous ts :
  (∀ t, t ∈ ts → t ∈ l) →
  ok_or_missing (dangling td l) (sd, ed) (backward_pass td adj ts (sd, ed)).
Proof.
  induction ts as [|t ts IH]; intros Hts; [by left|].
  cbn [backward_pass].
  destruct (backward_step_vacuous t) as [Hok|(k & Hk & Hr)].
  - apply Hts. left.
  - rewrite Hok. cbn [bind]. apply IH. intros x Hx. apply Hts. by right.
  - right. exists k. rewrite Hr. done.
Qed.
End Backward.

(** ** The shared computation, for every table with distinct keys *)

Lemma compute_times_spec td :
  NoDup (keys td) → ∃ l sd ed, times_spec td l sd ed.
Proof.
  intros Hnd. destruct (topo_sort_spec td Hnd) as (l & Hl & Hspec).
  destruct (forward_pass_topo td l Hspec) as (sd & ed & Hfw & Hinv).
  assert (Hkeys : ∀ t, t ∈ l → t ∈ keys td) by apply Hspec.
  exists l, sd, ed.
  assert (Htopo : topo_order td = Ok l) by (unfold topo_order; by rewrite Hl).
  split; [done|done|done|].
  unfold compute_times. rewrite Htopo. cbn [bind]. rewrite Hfw. cbn [bind].
  rewrite (init_latest_start_spec td l sd ed Hkeys Hinv). cbn [bind].
  destruct (backward_pass_vacuous td l sd ed Hnd Hkeys Hinv (reverse l))
    as [Hok|(k & Hk & Hr)].
  - intros t Ht. by rewrite elem_of_reverse in Ht.
  - rewrite Hok. by left.
  - rewrite Hr. right. by exists k.
Qed.

(** The fuel of [topo_sort] is never exhausted. *)
Lemma topo_order_total tasks : ∃ l, topo_order (task_dict tasks) = Ok l.
Proof.
  destruct (compute_times_spec _ (task_dict_NoDup tasks)) as (l & sd & ed & H).
  exists l. apply H.
Qed.

(** With every task ordered, nothing dangles and the computation returns. *)
Lemma times_spec_complete td l sd ed :
  times_spec td l sd ed → (∀ t, t ∈ keys td → t ∈ l) →
  compute_times td = Ok (Times l sd ed sd ed).
Proof.
  intros [_ _ _ [Hok|(k & [Hk (t & _ & Ht)] & _)]] Hall; [done|].
  destruct Hk. apply Hall. by eapply deps_is_key.
Qed.

(** ** Critical path *)

Lemma path_duration_app td a b :
  path_duration td (a ++ b) = path_duration td a + path_duration td b.
Proof.
  induction a as [|x a IH]; simpl; [done|]. rewrite IH. lia.
Qed.

Lemma path_duration_reverse td cp :
  path_duration td (reverse cp) = path_duration td cp.
Proof.
  induction cp as [|x cp IH]; [done|].
  rewrite reverse_cons, path_duration_app, IH. simpl. lia.
Qed.

Section Critical.
Variables (td : dict info) (l : list string) (sd ed : gmap string Z).
Hypothesis order : topo_spec td l.
Hypothesis fwd : fwd_inv td l sd ed.

(** The scan over [reverse pre] keeps [end_time + duration of the path]
    constant, and ends at [0] once [end_time] is [0] or the finish time of
    a task still to be scanned. *)
Lemma critical_loop_spec pre : ∀ suf cp e,
  l = pre ++ suf →
  ∃ cp' e',
    critical_loop td ed (reverse pre) cp e = Ok (cp', e')
    ∧ e' + path_duration td cp' = e + path_duration td cp
    ∧ (e = 0 ∨ (∃ u, u ∈ pre ∧ ed !! u = Some e) → e' = 0)
    ∧ (∀ x, x ∈ cp' → x ∈ cp ∨ x ∈ pre).
Proof.
  induction pre as [|t pre IH] using rev_ind; intros suf cp e Hl.
  - exists cp, e. split_and!; [done|done| |auto].
    intros [?|(u & Hu & _)]; [done|]. by apply elem_of_nil in Hu.
  - rewrite reverse_snoc. cbn [critical_loop].
    rewrite <- app_assoc in Hl. simpl in Hl.
    assert (Ht : t ∈ l).
    { rewrite Hl. apply elem_of_app. right. left. }
    destruct (fi_eqs _ _ _ _ fwd t Ht) as (s & Hs & He & Hs0 & Hs1).
    unfold getmap. rewrite He. cbn [bind].
    destruct (getitem_key td t (ts_keys _ _ order t Ht)) as (i & Hi & _ & Hd).
    destruct (Z.eqb_spec (s + dur td t) e) as [Heq|Hne].
    + rewrite Hi. cbn [bind]. rewrite Hd.
      destruct (IH (t :: suf) (cp ++ [t]) (e - dur td t) Hl)
        as (cp' & e' & Hrun & Hsum & Hzero & Hsub).
      exists cp', e'. split_and!; [done| | |].
      * rewrite Hsum, path_duration_app. simpl. lia.
      * intros _. apply Hzero.
        destruct (decide (deps td t = [])) as [Hnil|Hnn].
        -- left. rewrite (Hs0 Hnil) in Heq. lia.
        -- right. destruct (Hs1 Hnn) as [_ (d & Hd1 & Hd2)].
           exists d. split; [by eapply (ts_sorted _ _ order)|].
           rewrite Hd2. f_equal. lia.
      * intros x Hx. rewrite elem_of_app, list_elem_of_singleton.
        destruct (Hsub x Hx) as [Hc|Hp]; [|auto].
        apply elem_of_app in Hc as [?|Hc]; [auto|].
        apply list_elem_of_singleton in Hc. auto.
    + destruct (IH (t :: suf) cp e Hl) as (cp' & e' & Hrun & Hsum & Hzero & Hsub).
      exists cp', e'. split_and!; [done|done| |].
      * intros [?|(u & Hu & Hue)]; apply Hzero; [by left|right].
        exists u. split; [|done].
        apply elem_of_app in Hu as [?|Hu]; [done|].
        apply list_elem_of_singleton in Hu as ->.
        rewrite He in Hue. injection Hue as Hue. lia.
      * intros x Hx. rewrite elem_of_app.
        destruct (Hsub x Hx); auto.
Qed.

Lemma end_values_spec m :
  py_max (end_values ed) = Ok m →
  (∀ t f, ed !! t = Some f → f ≤ m) ∧ (∃ t, t ∈ l ∧ ed !! t = Some m).
Proof.
  intros Hm. apply py_max_spec in Hm as [Hub Hatt]. unfold end_values in *. split.
  - intros t f Hf. apply Hub. apply list_elem_of_fmap. exists (t, f).
    split; [done|]. by apply elem_of_map_to_list.
  - apply list_elem_of_fmap in Hatt as ([t f] & -> & Hin).
    apply elem_of_map_to_list in Hin. exists t. split; [|done].
    apply (fi_end _ _ _ _ fwd). by eexists.
Qed.

Lemma end_values_nonempty :
  l ≠ [] → ∃ m, py_max (end_values ed) = Ok m.
Proof.
  intros Hl. destruct l as [|t l'] eqn:E; [done|].
  assert (Ht : is_Some (ed !! t)) by (apply (fi_end _ _ _ _ fwd); left).
  destruct Ht as [f Hf]. apply elem_of_map_to_list in Hf.
  unfold end_values. destruct (map_to_list ed) as [|kv kvs]; [by apply elem_of_nil in Hf|].
  apply py_max_cons.
Qed.

Lemma extract_spec m :
  py_max (end_values ed) = Ok m →
  ∃ cp, extract td (Times l sd ed sd ed) = Ok (cp, m)
        ∧ path_duration td cp = m ∧ (∀ x, x ∈ cp → x ∈ l).
Proof.
  intros Hm. unfold extract. simpl. rewrite Hm. cbn [bind].
  destruct (critical_loop_spec l [] [] m) as (cp' & e' & Hrun & Hsum & Hzero & Hsub).
  { by rewrite app_nil_r. }
  rewrite Hrun. cbn [bind]. exists (reverse cp'). split_and!; [done| |].
  - rewrite path_duration_reverse.
    assert (e' = 0).
    { apply Hzero. right. by apply end_values_spec. }
    simpl in Hsum. lia.
  - intros x Hx. rewrite elem_of_reverse in Hx.
    destruct (Hsub x Hx) as [Hn|?]; [by apply elem_of_nil in Hn|done].
Qed.

Lemma extract_cases :
  match extract td (Times l sd ed sd ed) with
  | Ok (cp, _) => ∀ x, x ∈ cp → x ∈ l
  | Raise _ => True
  | OutOfFuel => False
  end.
Proof.
  destruct (py_max (end_values ed)) as [m|e|] eqn:Hm.
  - destruct (extract_spec m Hm) as (cp & -> & _ & Hsub). done.
  - unfold extract. simpl. by rewrite Hm.
  - unfold py_max in Hm. by destruct (end_values ed).
Qed.
End Critical.

Lemma calculate_critical_path_extract tasks :
  calculate_critical_path tasks
  = (tm <- compute_times (task_dict tasks) ;; extract (task_dict tasks) tm).
Proof. done. Qed.

(** ** From rows to the table *)

Lemma tc_impl {A} (R R' : relation A) x y :
  (∀ a b, R a b → R' a b) → tc R x y → tc R' x y.
Proof.
  intros H Htc. induction Htc as [x y Hxy|x y z Hxy _ IH].
  - apply tc_once. auto.
  - eapply tc_l; [apply H, Hxy|done].
Qed.

Lemma find_compute_times tasks tm :
  compute_times (task_dict tasks) = Ok tm →
  find_earliest_latest_start_finish tasks
  = Ok (t_start tm, t_end tm, t_latest_start tm, t_latest_finish tm).
Proof. intros H. unfold find_earliest_latest_start_finish. by rewrite H. Qed.

(** On a valid input every task is ordered and the shared computation
    returns, with the latest times equal to the earliest ones. *)
Lemma valid_times tasks :
  valid tasks →
  ∃ l sd ed,
    times_spec (task_dict tasks) l sd ed
    ∧ compute_times (task_dict tasks) = Ok (Times l sd ed sd ed)
    ∧ (∀ r, r ∈ tasks → task r ∈ l).
Proof.
  intros [Hdf Hres Hac]. set (td := task_dict tasks).
  destruct (compute_times_spec td (task_dict_NoDup tasks)) as (l & sd & ed & Hspec).
  assert (Hall : ∀ t, t ∈ keys td → t ∈ l).
  { apply (topo_complete td l (tm_order _ _ _ _ Hspec)).
    - intros t d Hd. unfold td. rewrite keys_task_dict by done.
      apply (Hres t d). by apply depends_on_deps.
    - intros t Htc. apply (Hac t). apply (tc_impl (dep td)); [|done].
      intros a b Hab. by apply depends_on_deps. }
  exists l, sd, ed. split_and!; [done|by apply times_spec_complete|].
  intros r Hr. apply Hall. unfold td. rewrite keys_task_dict by done.
  apply list_elem_of_fmap. by exists r.
Qed.

Lemma earliest_row tasks sd ed r :
  duplicate_free tasks → r ∈ tasks →
  earliest (task_dict tasks) sd ed (task r) →
  ∃ s, sd !! task r = Some s
    ∧ ed !! task r = Some (s + duration r)
    ∧ (deps_of r = [] → s = 0)
    ∧ (deps_of r ≠ [] →
         (∀ d, d ∈ deps_of r → ∃ f, ed !! d = Some f ∧ f ≤ s)
         ∧ (∃ d, d ∈ deps_of r ∧ ed !! d = Some s)).
Proof.
  intros Hdf Hr (s & H1 & H2 & H3 & H4).
  rewrite (deps_task_dict _ _ Hdf Hr) in H3, H4.
  rewrite (dur_task_dict _ _ Hdf Hr) in H2. by exists s.
Qed.

Lemma path_rows tasks cp :
  duplicate_free tasks → (∀ x, x ∈ cp → x ∈ names tasks) →
  ∃ rs, cp = task <$> rs ∧ (∀ r, r ∈ rs → r ∈ tasks)
        ∧ path_duration (task_dict tasks) cp = total_duration rs.
Proof.
  intros Hdf. induction cp as [|x cp IH]; intros Hsub.
  - exists []. split_and!; [done| |done]. intros r Hr. by apply elem_of_nil in Hr.
  - destruct IH as (rs & -> & Hrs & Hsum).
    { intros y Hy. apply Hsub. by right. }
    assert (Hx : x ∈ names tasks) by (apply Hsub; left).
    apply list_elem_of_fmap in Hx as (r & -> & Hr).
    exists (r :: rs). split_and!; [done| |].
    + intros r' Hr'. apply elem_of_cons in Hr' as [->|?]; auto.
    + simpl. by rewrite Hsum, dur_task_dict.
Qed.

(** A returned schedule, read off the evaluated outcome. *)
Lemma schedule_cases {A B C D} (P : A → B → C → D → Prop) (o : outcome (A * B * C * D)) :
  match o with
  | Ok (a, b, c, d) => P a b c d
  | _ => False
  end →
  ∃ a b c d, o = Ok (a, b, c, d) ∧ P a b c d.
Proof.
  destruct o as [[[[a b] c] d]| |]; [|done|done]. intros H. by exists a, b, c, d.
Qed.

(** ** Tasks that are never ordered *)

Lemma unscheduled_intro tasks t :
  (∀ l, topo_spec (task_dict tasks) l → t ∉ l) → unscheduled tasks t.
Proof.
  intros Hout. set (td := task_dict tasks).
  destruct (compute_times_spec td (task_dict_NoDup tasks))
    as (l & sd & ed & [Htopo Horder Hfwd Hcomp]).
  assert (Ht : t ∉ l) by auto.
  assert (Hsd : sd !! t = None).
  { apply eq_None_not_Some. intros H. by apply (fi_start _ _ _ _ Hfwd) in H. }
  assert (Hed : ed !! t = None).
  { apply eq_None_not_Some. intros H. by apply (fi_end _ _ _ _ Hfwd) in H. }
  split_and!.
  - by exists l.
  - destruct Hcomp as [Hok|(k & _ & Hr)].
    + by rewrite (find_compute_times _ _ Hok).
    + unfold find_earliest_latest_start_finish. fold td. by rewrite Hr.
  - rewrite calculate_critical_path_extract. fold td.
    destruct Hcomp as [Hok|(k & _ & Hr)].
    + rewrite Hok. cbn [bind].
      pose proof (extract_cases td l sd ed Horder Hfwd) as Hc.
      destruct (extract td _) as [[cp m]| |]; [|done|done].
      intros Hin. by apply Ht, Hc.
    + by rewrite Hr.
Qed.

(** ** A decision procedure for [valid] *)

Lemma validb_valid tasks : validb tasks = true → valid tasks.
Proof.
  unfold validb. rewrite !andb_true_iff. intros [[Hd Hr] Ha].
  apply bool_decide_eq_true in Hd.
  split; [done| |].
  - intros t d (r & Hin & _ & Hdep).
    rewrite forallb_forall in Hr. apply list_elem_of_In, Hr in Hin.
    rewrite forallb_forall in Hin. apply list_elem_of_In, Hin in Hdep.
    by apply bool_decide_eq_true in Hdep.
  - intros t Htc.
    destruct (topo_sort_spec _ (task_dict_NoDup tasks)) as (l & Hl & Hspec).
    unfold topo_order in Ha. rewrite Hl in Ha.
    assert (Ht : t ∈ l).
    { assert (Hr' : ∃ r, r ∈ tasks ∧ task r = t).
      { inversion Htc as [? ? (r & ? & ? & _)|? ? ? (r & ? & ? & _)]; by exists r. }
      destruct Hr' as (r & Hin & <-).
      rewrite forallb_forall in Ha. apply list_elem_of_In, Ha in Hin.
      by apply bool_decide_eq_true in Hin. }
    apply (cycle_not_ordered (task_dict tasks) l t Hspec); [|done].
    apply (tc_impl (depends_on tasks)); [|done].
    intros a b Hab. by apply depends_on_deps.
Qed.

Lemma sample_valid : valid sample.
Proof. apply validb_valid. vm_compute. reflexivity. Qed.

(** * The claims *)

(** C1, as stated, fails: [cyclic_input] has the cycle A -> B -> A, yet no
    error is raised; both functions return normally, with a schedule and a
    critical path for the remaining task C. *)
Lemma cycle_not_rejected :
  tc (depends_on cyclic_input) "A" "A"
  ∧ ∃ es ef ls lf,
      find_earliest_latest_start_finish cyclic_input = Ok (es, ef, ls, lf)
      ∧ ef !! "C" = Some 1
      ∧ calculate_critical_path cyclic_input = Ok (["C"], 1).
Proof.
  split.
  - apply tc_l with "B"; [|apply tc_once].
    + exists (Row "A" "B" 1). split_and!; [|done|].
      * apply list_elem_of_In. vm_compute. tauto.
      * apply list_elem_of_In. vm_compute. tauto.
    + exists (Row "B" "A" 1). split_and!; [|done|].
      * apply list_elem_of_In. vm_compute. tauto.
      * apply list_elem_of_In. vm_compute. tauto.
  - apply schedule_cases. vm_compute. split; reflexivity.
Qed.

(** C1, amended: the program has no cycle check and no [CycleError].  On a
    duplicate-free input, a task [t] that lies on a dependency cycle (a
    self-dependency included) is left out of [topo_order] when Kahn's loop
    ends; the passes run on the tasks that were ordered;
    [find_earliest_latest_start_finish] returns maps without an entry for
    [t] or raises [KeyError], and [calculate_critical_path] returns a path
    without [t] or raises. *)
Theorem cyclic_task_unscheduled tasks t :
  duplicate_free tasks → tc (depends_on tasks) t t → unscheduled tasks t.
Proof.
  intros Hdf Htc. apply unscheduled_intro. intros l Hspec.
  apply (cycle_not_ordered _ _ _ Hspec).
  apply (tc_impl (depends_on tasks)); [|done].
  intros a b Hab. by apply depends_on_deps.
Qed.

Lemma cyclic_task_unscheduled_witness :
  duplicate_free cyclic_input
  ∧ tc (depends_on cyclic_input) "A" "A"
  ∧ unscheduled cyclic_input "A".
Proof.
  assert (Hdf : duplicate_free cyclic_input).
  { apply (bool_decide_eq_true _). vm_compute. reflexivity. }
  assert (Htc : tc (depends_on cyclic_input) "A" "A").
  { apply tc_l with "B"; [|apply tc_once].
    - exists (Row "A" "B" 1). split_and!; [|reflexivity|].
      + apply list_elem_of_In. vm_compute. tauto.
      + apply list_elem_of_In. vm_compute. tauto.
    - exists (Row "B" "A" 1). split_and!; [|reflexivity|].
      + apply list_elem_of_In. vm_compute. tauto.
      + apply list_elem_of_In. vm_compute. tauto. }
  split; [exact Hdf|]. split; [exact Htc|].
  exact (cyclic_task_unscheduled cyclic_input "A" Hdf Htc).
Defined.

(** C2: on [two_independent], task A has no successor and the project ends
    at 5 (the earliest finish of B), yet the backward pass leaves
    [latest_finish] of A at 3, its own earliest finish. *)
Theorem sink_latest_finish_is_own_finish :
  (∀ t, ¬ depends_on two_independent t "A")
  ∧ ∃ es ef ls lf,
      find_earliest_latest_start_finish two_independent = Ok (es, ef, ls, lf)
      ∧ ef !! "A" = Some 3 ∧ ef !! "B" = Some 5
      ∧ lf !! "A" = Some 3
      ∧ calculate_critical_path two_independent = Ok (["B"], 5).
Proof.
  split.
  - intros t (r & Hr & _ & Hd). apply list_elem_of_In in Hr.
    destruct Hr as [<-|[<-|[]]]; apply list_elem_of_In in Hd; vm_compute in Hd; tauto.
  - apply schedule_cases. vm_compute. split_and!; reflexivity.
Qed.

(** C3: on every valid input the backward pass changes nothing: the
    returned [latest_start] is [start_dates] and the returned
    [latest_finish] is [end_dates], every task has an entry in them, and so
    every task has zero slack. *)
Theorem latest_equals_earliest tasks :
  valid tasks →
  ∃ es ef ls lf,
    find_earliest_latest_start_finish tasks = Ok (es, ef, ls, lf)
    ∧ ls = es ∧ lf = ef
    ∧ ∀ r, r ∈ tasks →
        ∃ s f, es !! task r = Some s ∧ ls !! task r = Some s
               ∧ ef !! task r = Some f ∧ lf !! task r = Some f
               ∧ f = s + duration r.
Proof.
  intros Hv. destruct (valid_times tasks Hv) as (l & sd & ed & Hspec & Hok & Hall).
  exists sd, ed, sd, ed. rewrite (find_compute_times _ _ Hok). simpl.
  split_and!; [done|done|done|]. intros r Hr.
  destruct (earliest_row tasks sd ed r (valid_duplicate_free _ Hv) Hr)
    as (s & Hs & He & _).
  { apply (fi_eqs _ _ _ _ (tm_fwd _ _ _ _ Hspec)). by apply Hall. }
  by exists s, (s + duration r).
Qed.

Lemma latest_equals_earliest_witness :
  valid sample
  ∧ ∃ es ef ls lf,
      find_earliest_latest_start_finish sample = Ok (es, ef, ls, lf)
      ∧ ls = es ∧ lf = ef
      ∧ ∀ r, r ∈ sample →
          ∃ s f, es !! task r = Some s ∧ ls !! task r = Some s
                 ∧ ef !! task r = Some f ∧ lf !! task r = Some f
                 ∧ f = s + duration r.
Proof.
  split; [exact sample_valid|].
  exact (latest_equals_earliest sample sample_valid).
Defined.

(** C4, as stated, fails: in [dangling_input] task B depends on X, which is
    no task, yet no error is raised; both functions return normally, with a
    schedule and a critical path for task A. *)
Lemma dangling_reference_not_rejected :
  depends_on dangling_input "B" "X"
  ∧ ("X" ∉ names dangling_input)
  ∧ ∃ es ef ls lf,
      find_earliest_latest_start_finish dangling_input = Ok (es, ef, ls, lf)
      ∧ ef !! "A" = Some 1
      ∧ calculate_critical_path dangling_input = Ok (["A"], 1).
Proof.
  split_and!.
  - exists (Row "B" "X" 2). split_and!; [|done|].
    + apply list_elem_of_In. vm_compute. tauto.
    + apply list_elem_of_In. vm_compute. tauto.
  - intros H. apply list_elem_of_In in H. vm_compute in H.
    destruct H as [H|[H|[]]]; discriminate H.
  - apply schedule_cases. vm_compute. split; reflexivity.
Qed.

(** C4, amended: the program does not validate dependency names and has no
    [ValidationError].  On a duplicate-free input, a task [t] whose
    dependencies contain a name [d] that is no task name is left out of
    [topo_order]; [find_earliest_latest_start_finish] returns maps without
    an entry for [t] or raises [KeyError], and [calculate_critical_path]
    returns a path without [t] or raises. *)
Theorem dangling_task_unscheduled tasks t d :
  duplicate_free tasks → depends_on tasks t d → d ∉ names tasks →
  unscheduled tasks t.
Proof.
  intros Hdf Hdep Hd. apply unscheduled_intro. intros l Hspec.
  apply (missing_dep_not_ordered _ _ t d Hspec).
  - by apply depends_on_deps.
  - intros Hin. apply Hd. rewrite <- keys_task_dict by done.
    by apply (ts_keys _ _ Hspec).
Qed.

Lemma dangling_task_unscheduled_witness :
  duplicate_free dangling_input
  ∧ depends_on dangling_input "B" "X"
  ∧ ("X" ∉ names dangling_input)
  ∧ unscheduled dangling_input "B".
Proof.
  assert (Hdf : duplicate_free dangling_input).
  { apply (bool_decide_eq_true _). vm_compute. reflexivity. }
  assert (Hdep : depends_on dangling_input "B" "X").
  { exists (Row "B" "X" 2). split_and!; [|reflexivity|].
    - apply list_elem_of_In. vm_compute. tauto.
    - apply list_elem_of_In. vm_compute. tauto. }
  assert (Hd : "X" ∉ names dangling_input).
  { intros H. apply list_elem_of_In in H. vm_compute in H.
    destruct H as [H|[H|[]]]; discriminate H. }
  split; [exact Hdf|]. split; [exact Hdep|]. split; [exact Hd|].
  exact (dangling_task_unscheduled dangling_input "B" "X" Hdf Hdep Hd).
Defined.

(** C5: on every valid, non-empty input [calculate_critical_path] returns a
    path and a total; the total is the maximum earliest finish over all
    tasks, the path consists of tasks of the input, and the durations of the
    tasks on the path add up to the total. *)
Theorem critical_path_duration_law tasks :
  valid tasks → tasks ≠ [] →
  ∃ cp total es ef ls lf,
    calculate_critical_path tasks = Ok (cp, total)
    ∧ find_earliest_latest_start_finish tasks = Ok (es, ef, ls, lf)
    ∧ (∀ r, r ∈ tasks → ∃ f, ef !! task r = Some f ∧ f ≤ total)
    ∧ (∃ r, r ∈ tasks ∧ ef !! task r = Some total)
    ∧ ∃ rs, cp = task <$> rs
            ∧ (∀ r, r ∈ rs → r ∈ tasks)
            ∧ total_duration rs = total.
Proof.
  intros Hv Hne.
  destruct (valid_times tasks Hv) as (l & sd & ed & Hspec & Hok & Hall).
  pose proof (valid_duplicate_free _ Hv) as Hdf.
  destruct Hspec as [_ Horder Hfwd _].
  assert (Hl : l ≠ []).
  { destruct tasks as [|r0 ?]; [done|]. intros ->.
    assert (H : task r0 ∈ []) by (apply Hall; left). by apply elem_of_nil in H. }
  destruct (end_values_nonempty (task_dict tasks) l sd ed Horder Hfwd Hl) as [m Hm].
  destruct (extract_spec (task_dict tasks) l sd ed Horder Hfwd m Hm)
    as (cp & Hex & Hsum & Hsub).
  destruct (end_values_spec (task_dict tasks) l sd ed Hfwd m Hm) as [Hub (t & Ht & Htm)].
  destruct (path_rows tasks cp Hdf) as (rs & Hcp & Hrs & Hdur).
  { intros x Hx. rewrite <- keys_task_dict by done.
    apply (ts_keys _ _ Horder), Hsub, Hx. }
  exists cp, m, sd, ed, sd, ed. split_and!.
  - rewrite calculate_critical_path_extract, Hok. done.
  - by rewrite (find_compute_times _ _ Hok).
  - intros r Hr. destruct (proj1 (fi_end _ _ _ _ Hfwd (task r)) (Hall r Hr)) as [f Hf].
    exists f. split; [done|]. by eapply Hub.
  - apply (ts_keys _ _ Horder) in Ht. rewrite keys_task_dict in Ht by done.
    apply list_elem_of_fmap in Ht as (r & -> & Hr). by exists r.
  - exists rs. split_and!; [done|done|]. by rewrite <- Hdur.
Qed.

Lemma critical_path_duration_law_witness :
  valid sample ∧ sample ≠ []
  ∧ ∃ cp total es ef ls lf,
      calculate_critical_path sample = Ok (cp, total)
      ∧ find_earliest_latest_start_finish sample = Ok (es, ef, ls, lf)
      ∧ (∀ r, r ∈ sample → ∃ f, ef !! task r = Some f ∧ f ≤ total)
      ∧ (∃ r, r ∈ sample ∧ ef !! task r = Some total)
      ∧ ∃ rs, cp = task <$> rs
              ∧ (∀ r, r ∈ rs → r ∈ sample)
              ∧ total_duration rs = total.
Proof.
  assert (Hne : sample ≠ []) by discriminate.
  split; [exact sample_valid|]. split; [exact Hne|].
  exact (critical_path_duration_law sample sample_valid Hne).
Defined.

(** C6: on every valid input and for every task, the returned earliest
    start is 0 when the task has no dependencies and otherwise the greatest
    earliest finish among its dependencies, and the returned earliest finish
    is the earliest start plus the duration. *)
Theorem forward_pass_equations tasks :
  valid tasks →
  ∃ es ef ls lf,
    find_earliest_latest_start_finish tasks = Ok (es, ef, ls, lf)
    ∧ ∀ r, r ∈ tasks →
        ∃ s, es !! task r = Some s
          ∧ ef !! task r = Some (s + duration r)
          ∧ (deps_of r = [] → s = 0)
          ∧ (deps_of r ≠ [] →
               (∀ d, d ∈ deps_of r → ∃ f, ef !! d = Some f ∧ f ≤ s)
               ∧ (∃ d, d ∈ deps_of r ∧ ef !! d = Some s)).
Proof.
  intros Hv. destruct (valid_times tasks Hv) as (l & sd & ed & Hspec & Hok & Hall).
  exists sd, ed, sd, ed. rewrite (find_compute_times _ _ Hok). simpl.
  split; [done|]. intros r Hr.
  apply (earliest_row tasks sd ed r (valid_duplicate_free _ Hv) Hr).
  apply (fi_eqs _ _ _ _ (tm_fwd _ _ _ _ Hspec)). by apply Hall.
Qed.

Lemma forward_pass_equations_witness :
  valid sample
  ∧ ∃ es ef ls lf,
      find_earliest_latest_start_finish sample = Ok (es, ef, ls, lf)
      ∧ ∀ r, r ∈ sample →
          ∃ s, es !! task r = Some s
            ∧ ef !! task r = Some (s + duration r)
            ∧ (deps_of r = [] → s = 0)
            ∧ (deps_of r ≠ [] →
                 (∀ d, d ∈ deps_of r → ∃ f, ef !! d = Some f ∧ f ≤ s)
                 ∧ (∃ d, d ∈ deps_of r ∧ ef !! d = Some s)).
Proof.
  split; [exact sample_valid|].
  exact (forward_pass_equations sample sample_valid).
Defined.

(** C7: on every valid input and for every task, the earliest start is at
    most the latest start and the earliest finish is at most the latest
    finish. *)
Theorem earliest_le_latest tasks :
  valid tasks →
  ∃ es ef ls lf,
    find_earliest_latest_start_finish tasks = Ok (es, ef, ls, lf)
    ∧ ∀ r, r ∈ tasks →
        ∃ s f s' f',
          es !! task r = Some s ∧ ef !! task r = Some f
          ∧ ls !! task r = Some s' ∧ lf !! task r = Some f'
          ∧ s ≤ s' ∧ f ≤ f'.
Proof.
  intros Hv. destruct (valid_times tasks Hv) as (l & sd & ed & Hspec & Hok & Hall).
  exists sd, ed, sd, ed. rewrite (find_compute_times _ _ Hok). simpl.
  split; [done|]. intros r Hr.
  destruct (fi_eqs _ _ _ _ (tm_fwd _ _ _ _ Hspec) (task r) (Hall r Hr))
    as (s & Hs & He & _).
  exists s, (s + dur (task_dict tasks) (task r)), s, (s + dur (task_dict tasks) (task r)).
  split_and!; [done|done|done|done|lia|lia].
Qed.

Lemma earliest_le_latest_witness :
  valid sample
  ∧ ∃ es ef ls lf,
      find_earliest_latest_start_finish sample = Ok (es, ef, ls, lf)
      ∧ ∀ r, r ∈ sample →
          ∃ s f s' f',
            es !! task r = Some s ∧ ef !! task r = Some f
            ∧ ls !! task r = Some s' ∧ lf !! task r = Some f'
            ∧ s ≤ s' ∧ f ≤ f'.
Proof.
  split; [exact sample_valid|].
  exact (earliest_le_latest sample sample_valid).
Defined.

(** C8: on every valid input Kahn's loop returns an order without
    repetition that holds every task and in which each dependency of a task
    stands at a strictly earlier position than the task. *)
Theorem topo_order_respects_dependencies tasks :
  valid tasks →
  ∃ l, topo_order (task_dict tasks) = Ok l
       ∧ NoDup l
       ∧ (∀ r, r ∈ tasks → task r ∈ l)
       ∧ ∀ r d, r ∈ tasks → d ∈ deps_of r →
           ∃ i j, (i < j)%nat ∧ l !! i = Some d ∧ l !! j = Some (task r).
Proof.
  intros Hv. destruct (valid_times tasks Hv) as (l & sd & ed & Hspec & _ & Hall).
  destruct Hspec as [Htopo Horder _ _].
  exists l. split_and!; [done|apply Horder|done|]. intros r d Hr Hd.
  destruct (list_elem_of_split _ _ (Hall r Hr)) as (l1 & l2 & Hl).
  assert (Hd1 : d ∈ l1).
  { apply (ts_sorted _ _ Horder l1 (task r) l2 Hl).
    by rewrite (deps_task_dict _ _ (valid_duplicate_free _ Hv) Hr). }
  apply list_elem_of_lookup in Hd1 as [i Hi].
  exists i, (length l1). split_and!.
  - by eapply lookup_lt_Some.
  - rewrite Hl. by apply lookup_app_l_Some.
  - rewrite Hl. by apply list_lookup_middle.
Qed.

Lemma topo_order_respects_dependencies_witness :
  valid sample
  ∧ ∃ l, topo_order (task_dict sample) = Ok l
         ∧ NoDup l
         ∧ (∀ r, r ∈ sample → task r ∈ l)
         ∧ ∀ r d, r ∈ sample → d ∈ deps_of r →
             ∃ i j, (i < j)%nat ∧ l !! i = Some d ∧ l !! j = Some (task r).
Proof.
  split; [exact sample_valid|].
  exact (topo_order_respects_dependencies sample sample_valid).
Defined.

(** C9: on the four-task sample the earliest finishes are T1 = 5, T2 = 8,
    T3 = 7 and T4 = 12, the total duration is 12 and the critical path is
    T1, T2, T4 in that order. *)
Theorem sample_schedule :
  ∃ es ef ls lf,
    find_earliest_latest_start_finish sample = Ok (es, ef, ls, lf)
    ∧ ef = list_to_map [("T1", 5); ("T2", 8); ("T3", 7); ("T4", 12)]
    ∧ calculate_critical_path sample = Ok (["T1"; "T2"; "T4"], 12).
Proof.
  apply schedule_cases. vm_compute. split; reflexivity.
Qed.

(** C10, as stated, fails: the empty request does not hand the caller an
    empty result.  After the one-task table has been drawn, deleting its
    row leaves the empty table; the request on it ends normally and the
    window still shows the old critical path, the old duration and the old
    chart. *)
Lemma empty_request_keeps_old_result :
  delete_task only_table [0%nat] = Deleted []
  ∧ r_status (redraw only_display []) = Ok ()
  ∧ critical_path_label (r_display (redraw only_display [])) = Some ["Only"]
  ∧ duration_label (r_display (redraw only_display [])) = Some 7
  ∧ chart (r_display (redraw only_display []))
    = Some [(Bar "Only" 0 7, true)].
Proof. split_and!; vm_compute; reflexivity. Qed.

(** C10, amended: the empty request is a no-op, not a failure:
    [on_calculate_and_draw] returns at once on an empty table, whatever the
    functions it would call do (so none of them is consulted): nothing is
    raised, no cell is written, and the labels and the chart stay as they
    were, which is not an empty result unless they were empty before. *)
Theorem empty_request_is_noop find critical gantt d :
  on_calculate_and_draw_with find critical gantt d [] = Redrawn d None (Ok ()).
Proof. reflexivity. Qed.

(** * Further properties *)

(** ** [split] and [join] *)

Lemma string_app_cons x (a b : string) : String x a +:+ b = String x (a +:+ b).
Proof. done. Qed.

Lemma string_app_assoc (a b c : string) : (a +:+ b) +:+ c = a +:+ b +:+ c.
Proof. induction a as [|x a IH]; [done|]. rewrite !string_app_cons. by rewrite IH. Qed.

Lemma string_app_nil_r (a : string) : a +:+ "" = a.
Proof. induction a as [|x a IH]; [done|]. rewrite string_app_cons. by rewrite IH. Qed.

(** Induction that follows the two-character look-ahead of [split_on]. *)
Lemma string_ind2 (P : string → Prop) :
  P "" →
  (∀ c, P (String c "")) →
  (∀ c c' s, P s → P (String c' s) → P (String c (String c' s))) →
  ∀ s, P s.
Proof.
  intros H0 H1 H2 s.
  assert (H : P s ∧ ∀ c, P (String c s)); [|apply H].
  induction s as [|c' s [IHa IHb]]; [by split|].
  split; [apply IHb|]. intros c. by apply H2.
Qed.

Lemma split_on_cons2 cur c c' s :
  split_on cur (String c (String c' s))
  = if (Ascii.eqb c ","%char && Ascii.eqb c' " "%char)%bool
    then cur :: split_on "" s
    else split_on (cur +:+ String c "") (String c' s).
Proof. done. Qed.

Lemma split_on_nonempty s : ∀ cur, split_on cur s ≠ [].
Proof.
  induction s as [|c|c c' s IH1 IH2] using string_ind2; intros cur; [done|done|].
  rewrite split_on_cons2. destruct (_ && _)%bool; [done|]. apply IH2.
Qed.

Lemma join_split_on s : ∀ cur, join (split_on cur s) = cur +:+ s.
Proof.
  induction s as [|c|c c' s IH1 IH2] using string_ind2; intros cur.
  - simpl. by rewrite string_app_nil_r.
  - done.
  - rewrite split_on_cons2.
    destruct (Ascii.eqb c ","%char && Ascii.eqb c' " "%char)%bool eqn:E.
    + apply andb_true_iff in E as [E1 E2].
      apply Ascii.eqb_eq in E1 as ->. apply Ascii.eqb_eq in E2 as ->.
      cbn [join]. destruct (split_on "" s) as [|p ps] eqn:Hs.
      { by apply split_on_nonempty in Hs. }
      rewrite <- Hs, IH1. done.
    + rewrite IH2, string_app_assoc. done.
Qed.

(** A separator-free piece is read to its end. *)
Lemma sep_free_tail c p : sep_free (String c p) → sep_free p.
Proof.
  intros H a b ->. apply (H (String c a) b). done.
Qed.

Lemma split_on_piece_end p : ∀ cur, sep_free p → split_on cur p = [cur +:+ p].
Proof.
  induction p as [|c|c c' p IH1 IH2] using string_ind2; intros cur Hp.
  - simpl. by rewrite string_app_nil_r.
  - done.
  - rewrite split_on_cons2.
    destruct (Ascii.eqb c ","%char && Ascii.eqb c' " "%char)%bool eqn:E.
    + apply andb_true_iff in E as [E1 E2].
      apply Ascii.eqb_eq in E1 as ->. apply Ascii.eqb_eq in E2 as ->.
      destruct (Hp "" p). done.
    + rewrite IH2 by (by eapply sep_free_tail).
      by rewrite string_app_assoc.
Qed.

Lemma split_on_piece p : ∀ cur rest,
  sep_free p →
  split_on cur (p +:+ ", " +:+ rest) = (cur +:+ p) :: split_on "" rest.
Proof.
  induction p as [|c|c c' p IH1 IH2] using string_ind2; intros cur rest Hp.
  - change ("" +:+ ", " +:+ rest) with (String "," (String " " rest)).
    cbn [split_on]. simpl. by rewrite string_app_nil_r.
  - change (String c "" +:+ ", " +:+ rest)
      with (String c (String "," (String " " rest))).
    rewrite split_on_cons2.
    destruct (Ascii.eqb c ","%char && Ascii.eqb "," " "%char)%bool eqn:E.
    { apply andb_true_iff in E as [_ E2]. done. }
    rewrite split_on_cons2. done.
  - change (String c (String c' p) +:+ ", " +:+ rest)
      with (String c (String c' p +:+ ", " +:+ rest)).
    change (String c' p +:+ ", " +:+ rest) with (String c' (p +:+ ", " +:+ rest)) at 1.
    rewrite split_on_cons2.
    destruct (Ascii.eqb c ","%char && Ascii.eqb c' " "%char)%bool eqn:E.
    + apply andb_true_iff in E as [E1 E2].
      apply Ascii.eqb_eq in E1 as ->. apply Ascii.eqb_eq in E2 as ->.
      destruct (Hp "" p). done.
    + change (String c' (p +:+ ", " +:+ rest)) with (String c' p +:+ ", " +:+ rest).
      rewrite IH2 by (by eapply sep_free_tail).
      by rewrite string_app_assoc.
Qed.

(** X1: splitting never loses text: joining the pieces of [split s] with
    [", "] gives [s] back, and there is always at least one piece. *)
Theorem join_split s : join (split s) = s ∧ split s ≠ [].
Proof.
  split; [apply (join_split_on s "")|apply split_on_nonempty].
Qed.

(** X2: names that do not contain [", "], joined with [", "], are split
    back into the same names. *)
Theorem split_join l :
  l ≠ [] → Forall sep_free l → split (join l) = l.
Proof.
  intros Hne Hall. unfold split.
  induction Hall as [|p l Hp Hall IH]; [done|].
  destruct l as [|q l].
  - simpl. by rewrite split_on_piece_end.
  - change (join (p :: q :: l)) with (p +:+ ", " +:+ join (q :: l)).
    rewrite split_on_piece by done. simpl. f_equal. by apply IH.
Qed.

Lemma sep_free_A : sep_free "A".
Proof.
  intros a b H. destruct a as [|x [|y a]]; cbv in H; discriminate H.
Qed.

Lemma sep_free_B : sep_free "B".
Proof.
  intros a b H. destruct a as [|x [|y a]]; cbv in H; discriminate H.
Qed.

Lemma split_join_witness :
  ["A"; "B"] ≠ [] ∧ Forall sep_free ["A"; "B"]
  ∧ split (join ["A"; "B"]) = ["A"; "B"].
Proof.
  assert (Hne : ["A"; "B"] ≠ @nil string) by discriminate.
  assert (Hall : Forall sep_free ["A"; "B"]).
  { repeat constructor; [exact sep_free_A|exact sep_free_B]. }
  split; [exact Hne|]. split; [exact Hall|].
  exact (split_join ["A"; "B"] Hne Hall).
Defined.

(** X3: a row has no dependencies exactly when its dependency cell is
    ["-"]; any other cell, the empty one included, gives at least one
    dependency name. *)
Theorem parse_depends_nil s : parse_depends s = [] ↔ s = "-".
Proof.
  unfold parse_depends. destruct (String.eqb_spec s "-") as [->|Hne].
  - done.
  - split; [|done]. intros H. by apply split_on_nonempty in H.
Qed.

(** ** [task_dict] on arbitrary tables *)

Lemma dict_get_set {V} k k' (v : V) d :
  dict_get k' (dict_set k v d) = if decide (k' = k) then Some v else dict_get k' d.
Proof.
  induction d as [|[k0 v0] d IH]; cbn [dict_set dict_get].
  - rewrite eqb_decide. case_bool_decide; case_decide; done.
  - rewrite (eqb_decide k k0). case_bool_decide as Hk; cbn [dict_get].
    + subst k0. rewrite !eqb_decide. case_bool_decide; case_decide; done.
    + rewrite IH, !eqb_decide.
      case_bool_decide; case_decide; subst; done.
Qed.

Lemma elem_of_keys_dict_set {V} k k' (v : V) d :
  k' ∈ keys (dict_set k v d) ↔ k' = k ∨ k' ∈ keys d.
Proof.
  rewrite <- !dict_get_is_Some, dict_get_set. case_decide; [|tauto].
  split; [auto|]. intros _. by eexists.
Qed.

Lemma task_dict_snoc tasks r :
  task_dict (tasks ++ [r]) = dict_set (task r) (row_info r) (task_dict tasks).
Proof. unfold task_dict. by rewrite foldl_app. Qed.

Lemma elem_of_keys_task_dict tasks t :
  t ∈ keys (task_dict tasks) ↔ t ∈ names tasks.
Proof.
  unfold names. induction tasks as [|r tasks IH] using rev_ind.
  - done.
  - rewrite task_dict_snoc, elem_of_keys_dict_set, IH, fmap_app, elem_of_app.
    simpl. rewrite list_elem_of_singleton. tauto.
Qed.

Lemma task_dict_last a r b :
  task r ∉ names b →
  dict_get (task r) (task_dict (a ++ r :: b)) = Some (row_info r).
Proof.
  unfold names. induction b as [|r' b IH] using rev_ind; intros Hb.
  - rewrite task_dict_snoc, dict_get_set. by rewrite decide_True.
  - rewrite fmap_app, elem_of_app in Hb. simpl in Hb.
    rewrite list_elem_of_singleton in Hb.
    replace (a ++ r :: b ++ [r']) with ((a ++ r :: b) ++ [r'])
      by (by rewrite <- app_assoc).
    rewrite task_dict_snoc, dict_get_set.
    rewrite decide_False by tauto. apply IH. tauto.
Qed.

(** Every entry of the table comes from a row. *)
Lemma task_dict_entry tasks t i :
  dict_get t (task_dict tasks) = Some i →
  ∃ r, r ∈ tasks ∧ task r = t ∧ i = row_info r.
Proof.
  revert i. induction tasks as [|r tasks IH] using rev_ind; intros i.
  - done.
  - rewrite task_dict_snoc, dict_get_set. case_decide as Hk.
    + intros [= <-]. exists r. split; [|done]. apply elem_of_app. right. left.
    + intros Hi. destruct (IH i Hi) as (r' & Hr' & Ht & Hi').
      exists r'. split; [|done]. apply elem_of_app. by left.
Qed.

(** X4: whatever the table, [task_dict] has one entry per task name, and
    the entry of a name is the one of the last row with that name. *)
Theorem task_dict_last_row_wins a r b :
  task r ∉ names b →
  NoDup (keys (task_dict (a ++ r :: b)))
  ∧ (∀ t, t ∈ keys (task_dict (a ++ r :: b)) ↔ t ∈ names (a ++ r :: b))
  ∧ dict_get (task r) (task_dict (a ++ r :: b)) = Some (row_info r).
Proof.
  intros Hb. split_and!.
  - apply task_dict_NoDup.
  - intros t. apply elem_of_keys_task_dict.
  - by apply task_dict_last.
Qed.

Lemma task_dict_last_row_wins_witness :
  NoDup (keys (task_dict ([Row "A" "-" 1; Row "B" "-" 2] ++ Row "A" "B" 3 :: [])))
  ∧ (∀ t, t ∈ keys (task_dict ([Row "A" "-" 1; Row "B" "-" 2] ++ Row "A" "B" 3 :: []))
          ↔ t ∈ names ([Row "A" "-" 1; Row "B" "-" 2] ++ Row "A" "B" 3 :: []))
  ∧ dict_get "A" (task_dict ([Row "A" "-" 1; Row "B" "-" 2] ++ Row "A" "B" 3 :: []))
    = Some (row_info (Row "A" "B" 3)).
Proof.
  apply (task_dict_last_row_wins [Row "A" "-" 1; Row "B" "-" 2] (Row "A" "B" 3) []).
  apply not_elem_of_nil.
Defined.

(** ** The engine on arbitrary tables *)

(** X5: whatever the table, Kahn's loop ends within its budget of one pass
    per task name; the order it returns has no repetition, holds task names
    only, lists a task exactly when it lists all its dependencies, and puts
    every dependency to the left of the task. *)
Theorem topo_order_characterisation tasks :
  ∃ l, topo_order (task_dict tasks) = Ok l
       ∧ NoDup l
       ∧ (∀ t, t ∈ l → t ∈ names tasks)
       ∧ (∀ t, t ∈ names tasks →
            (t ∈ l ↔ ∀ d, d ∈ deps (task_dict tasks) t → d ∈ l))
       ∧ sorted (task_dict tasks) l.
Proof.
  destruct (topo_sort_spec _ (task_dict_NoDup tasks)) as (l & Hl & [H1 H2 H3 H4]).
  exists l. unfold topo_order. rewrite Hl. split_and!; [done|done| | |done].
  - intros t Ht. by apply elem_of_keys_task_dict, H2.
  - intros t Ht. apply H3. by apply elem_of_keys_task_dict.
Qed.

Lemma fold_successors_Ok t ls ss : ∀ lf lf',
  fold_successors t ls ss lf = Ok lf' → ∀ s, s ∈ ss → is_Some (ls !! s).
Proof.
  induction ss as [|s0 ss IH]; intros lf lf' Hok s Hs.
  - by apply elem_of_nil in Hs.
  - cbn [fold_successors] in Hok. unfold getmap in Hok.
    destruct (lf !! t) as [a|]; [|done]. cbn [bind] in Hok.
    destruct (ls !! s0) as [b|] eqn:Hb; [|done]. cbn [bind] in Hok.
    apply elem_of_cons in Hs as [->|Hs]; [by eexists|].
    by eapply IH.
Qed.

Lemma backward_pass_Ok td l sd ed ts acc :
  NoDup (keys td) → (∀ t, t ∈ l → t ∈ keys td) → fwd_inv td l sd ed →
  (∀ t, t ∈ ts → t ∈ l) →
  backward_pass td (build_graph td).1 ts (sd, ed) = Ok acc →
  ∀ t k, t ∈ ts → successor_of td t k → k ∈ l.
Proof.
  intros Hnd Hkeys Hfwd. induction ts as [|t0 ts IH]; intros Hts Hok t k Ht Hk.
  - by apply elem_of_nil in Ht.
  - cbn [backward_pass] in Hok.
    assert (Ht0 : t0 ∈ l) by (apply Hts; left).
    destruct (backward_step_vacuous td l sd ed Hnd Hkeys Hfwd t0 Ht0)
      as [Hstep|(k' & _ & Hr)].
    2:{ rewrite Hr in Hok. done. }
    pose proof Hstep as Hstep'. rewrite Hstep in Hok. cbn [bind] in Hok.
    apply elem_of_cons in Ht as [->|Ht].
    + unfold backward_step in Hstep'.
      destruct (fold_successors t0 sd (succs (build_graph td).1 t0) ed)
        as [lf'| |] eqn:Hf; [|done|done].
      apply (fi_start _ _ _ _ Hfwd).
      apply (fold_successors_Ok _ _ _ _ _ Hf).
      by apply (elem_of_succs td Hnd).
    + apply (IH (λ x Hx, Hts x (list_elem_of_further _ _ _ Hx)) Hok t k Ht Hk).
Qed.

(** Once the duration cells are read, [find_earliest_latest_start_finish]
    either returns or raises [KeyError], and it raises exactly when some
    ordered task has a successor that Kahn's loop left out. *)
Lemma find_outcomes_read tasks :
  ∃ l, topo_order (task_dict tasks) = Ok l
    ∧ ((∃ es ef,
          find_earliest_latest_start_finish tasks = Ok (es, ef, es, ef)
          ∧ (∀ t, t ∈ l ↔ is_Some (es !! t))
          ∧ (∀ t, t ∈ l ↔ is_Some (ef !! t))
          ∧ (∀ t k, t ∈ l → successor_of (task_dict tasks) t k → k ∈ l))
       ∨ (∃ t k,
          find_earliest_latest_start_finish tasks = Raise (KeyError k)
          ∧ t ∈ l ∧ successor_of (task_dict tasks) t k ∧ k ∉ l)).
Proof.
  set (td := task_dict tasks).
  pose proof (task_dict_NoDup tasks) as Hnd. fold td in Hnd.
  destruct (compute_times_spec td Hnd) as (l & sd & ed & [Htopo Horder Hfwd Hcomp]).
  exists l. split; [done|].
  destruct Hcomp as [Hok|(k & [Hk (t & Ht & Htk)] & Hr)].
  - left. exists sd, ed. rewrite (find_compute_times _ _ Hok). simpl.
    split_and!; [done|apply Hfwd|apply Hfwd|].
    unfold compute_times in Hok. rewrite Htopo in Hok. cbn [bind] in Hok.
    destruct (forward_pass_topo td l Horder) as (sd' & ed' & Hfw & Hfwd').
    rewrite Hfw in Hok. cbn [bind] in Hok.
    rewrite (init_latest_start_spec td l sd' ed' (ts_keys _ _ Horder) Hfwd') in Hok.
    cbn [bind] in Hok.
    destruct (backward_pass td (build_graph td).1 (reverse l) (sd', ed'))
      as [acc| |] eqn:Hbw; [|done|done].
    assert (Hrev : ∀ x, x ∈ reverse l → x ∈ l).
    { intros x Hx. by rewrite elem_of_reverse in Hx. }
    intros t k Ht Hk.
    apply (backward_pass_Ok td l sd' ed' (reverse l) acc Hnd
             (ts_keys _ _ Horder) Hfwd' Hrev Hbw t k); [|done].
    by rewrite elem_of_reverse.
  - right. exists t, k. unfold find_earliest_latest_start_finish. fold td.
    rewrite Hr. done.
Qed.

Lemma fwd_inv_nil td sd ed : fwd_inv td [] sd ed → sd = ∅ ∧ ed = ∅.
Proof.
  intros [Hs He _]. split; apply map_eq; intros k; rewrite lookup_empty;
    apply eq_None_not_Some; intros H.
  - apply Hs in H. by apply elem_of_nil in H.
  - apply He in H. by apply elem_of_nil in H.
Qed.

(** Once the duration cells are read, [calculate_critical_path] raises
    [ValueError] exactly when every task has at least one dependency. *)
Lemma critical_path_value_error_read tasks :
  (calculate_critical_path tasks = Raise ValueError
   ↔ ∀ t, t ∈ names tasks → deps (task_dict tasks) t ≠ [])
  ∧ (calculate_critical_path tasks = Raise ValueError →
     topo_order (task_dict tasks) = Ok []
     ∧ find_earliest_latest_start_finish tasks = Ok (∅, ∅, ∅, ∅)).
Proof.
  set (td := task_dict tasks).
  pose proof (task_dict_NoDup tasks) as Hnd. fold td in Hnd.
  destruct (compute_times_spec td Hnd) as (l & sd & ed & [Htopo Horder Hfwd Hcomp]).
  assert (Hcond : calculate_critical_path tasks = Raise ValueError →
                  ∀ t, t ∈ names tasks → deps td t ≠ []).
  { intros Hve t Ht Hnil.
    assert (Htl : t ∈ l).
    { apply (ts_ready _ _ Horder); [by apply elem_of_keys_task_dict|].
      intros d Hd. rewrite Hnil in Hd. by apply elem_of_nil in Hd. }
    rewrite calculate_critical_path_extract in Hve. fold td in Hve.
    destruct Hcomp as [Hok|(k & _ & Hr)]; [|by rewrite Hr in Hve].
    rewrite Hok in Hve. cbn [bind] in Hve.
    destruct (end_values_nonempty td l sd ed Horder Hfwd) as [m Hm].
    { intros ->. by apply elem_of_nil in Htl. }
    destruct (extract_spec td l sd ed Horder Hfwd m Hm) as (cp & Hex & _).
    by rewrite Hex in Hve. }
  assert (Hnil : (∀ t, t ∈ names tasks → deps td t ≠ []) → l = []).
  { intros Hall. destruct l as [|t l']; [done|].
    destruct (Hall t).
    - apply elem_of_keys_task_dict, (ts_keys _ _ Horder). left.
    - apply elem_of_nil_inv. intros d Hd.
      assert (H : d ∈ []); [|by apply elem_of_nil in H].
      by apply (ts_sorted _ _ Horder [] t l'). }
  assert (Hres : l = [] →
    calculate_critical_path tasks = Raise ValueError
    ∧ topo_order td = Ok []
    ∧ find_earliest_latest_start_finish tasks = Ok (∅, ∅, ∅, ∅)).
  { intros ->. destruct (fwd_inv_nil _ _ _ Hfwd) as [-> ->].
    assert (Hok : compute_times td = Ok (Times [] ∅ ∅ ∅ ∅)).
    { destruct Hcomp as [?|(k & [_ (t & Ht & _)] & _)]; [done|].
      by apply elem_of_nil in Ht. }
    split_and!; [|done|by rewrite (find_compute_times _ _ Hok)].
    rewrite calculate_critical_path_extract. fold td. rewrite Hok. done. }
  split.
  - split; [done|]. intros Hall. by apply Hres, Hnil.
  - intros Hve. apply Hres, Hnil, Hcond, Hve.
Qed.

(** ** More on the critical path *)

Section CriticalMore.
Variables (td : dict info) (l : list string) (sd ed : gmap string Z).
Hypothesis order : topo_spec td l.
Hypothesis fwd : fwd_inv td l sd ed.

Lemma critical_loop_linked total pre : ∀ suf cp e cp' e',
  l = pre ++ suf →
  critical_loop td ed (reverse pre) cp e = Ok (cp', e') →
  linked sd ed e (reverse cp) total →
  linked sd ed e' (reverse cp') total.
Proof.
  induction pre as [|t pre IH] using rev_ind; intros suf cp e cp' e' Hl Hrun Hlk.
  - simpl in Hrun. by injection Hrun as <- <-.
  - rewrite reverse_snoc in Hrun. cbn [critical_loop] in Hrun.
    rewrite <- app_assoc in Hl. simpl in Hl.
    assert (Ht : t ∈ l).
    { rewrite Hl. apply elem_of_app. right. left. }
    destruct (fi_eqs _ _ _ _ fwd t Ht) as (s & Hs & He & _).
    unfold getmap in Hrun. rewrite He in Hrun. cbn [bind] in Hrun.
    destruct (getitem_key td t (ts_keys _ _ order t Ht)) as (i & Hi & _ & Hd).
    destruct (Z.eqb_spec (s + dur td t) e) as [Heq|Hne].
    + rewrite Hi in Hrun. cbn [bind] in Hrun. rewrite Hd in Hrun.
      apply (IH (t :: suf) (cp ++ [t]) (e - dur td t) cp' e' Hl Hrun).
      rewrite reverse_snoc. cbn [linked].
      replace (e - dur td t) with s by lia.
      split; [done|]. exists e. split; [by rewrite He, Heq|done].
    + by apply (IH (t :: suf) cp e cp' e' Hl Hrun).
Qed.

Lemma critical_loop_sublist pre : ∀ suf cp e cp' e',
  critical_loop td ed (reverse pre) cp e = Ok (cp', e') →
  reverse cp `sublist_of` suf →
  reverse cp' `sublist_of` pre ++ suf.
Proof.
  induction pre as [|t pre IH] using rev_ind; intros suf cp e cp' e' Hrun Hsub.
  - simpl in Hrun. by injection Hrun as <- <-.
  - rewrite reverse_snoc in Hrun. cbn [critical_loop] in Hrun.
    rewrite <- app_assoc. simpl.
    destruct (getmap ed t) as [f| |]; [|done|done]. cbn [bind] in Hrun.
    destruct (f =? e).
    + destruct (getitem td t) as [i| |]; [|done|done]. cbn [bind] in Hrun.
      apply (IH (t :: suf) _ _ _ _ Hrun).
      rewrite reverse_snoc. by apply sublist_skip.
    + apply (IH (t :: suf) _ _ _ _ Hrun). by apply sublist_cons.
Qed.

Lemma extract_linked cp m :
  extract td (Times l sd ed sd ed) = Ok (cp, m) →
  linked sd ed 0 cp m ∧ cp `sublist_of` l
  ∧ (∀ t f, ed !! t = Some f → f ≤ m) ∧ (∃ t, t ∈ l ∧ ed !! t = Some m).
Proof.
  intros Hex. unfold extract in Hex. simpl in Hex.
  destruct (py_max (end_values ed)) as [m0| |] eqn:Hm; [|done|done].
  cbn [bind] in Hex.
  destruct (critical_loop_spec td l sd ed order fwd l [] [] m0)
    as (cp' & e' & Hrun & Hsum & Hzero & _).
  { by rewrite app_nil_r. }
  rewrite Hrun in Hex. cbn [bind] in Hex. injection Hex as <- <-.
  destruct (end_values_spec td l sd ed fwd m0 Hm) as [Hub Hatt].
  assert (e' = 0) by (apply Hzero; by right). subst e'.
  split_and!; [| |done|done].
  - apply (critical_loop_linked m0 l [] [] m0 cp' 0); [by rewrite app_nil_r|done|done].
  - pose proof (critical_loop_sublist l [] [] m0 cp' 0 Hrun) as H.
    rewrite app_nil_r in H. by apply H.
Qed.

(** Earliest starts are non-negative when durations are. *)
Lemma start_nonneg :
  (∀ t, t ∈ l → 0 ≤ dur td t) →
  ∀ t s, sd !! t = Some s → 0 ≤ s.
Proof.
  intros Hdur.
  assert (H : ∀ n pre t suf s, length pre = n → l = pre ++ t :: suf →
                sd !! t = Some s → 0 ≤ s).
  { induction n as [n IH] using lt_wf_ind. intros pre t suf s Hlen Hl Hs.
    assert (Ht : t ∈ l).
    { rewrite Hl. apply elem_of_app. right. left. }
    destruct (fi_eqs _ _ _ _ fwd t Ht) as (s' & Hs' & _ & H0 & H1).
    rewrite Hs in Hs'. injection Hs' as <-.
    destruct (decide (deps td t = [])) as [Hnil|Hnn]; [rewrite (H0 Hnil); lia|].
    destruct (H1 Hnn) as [_ (d & Hd & Hed)].
    assert (Hdp : d ∈ pre) by (by eapply (ts_sorted _ _ order)).
    apply list_elem_of_split in Hdp as (a & b & ->).
    assert (Hdl : d ∈ l).
    { rewrite Hl. apply elem_of_app. left. apply elem_of_app. right. left. }
    destruct (fi_eqs _ _ _ _ fwd d Hdl) as (sd0 & Hsd0 & Hed0 & _).
    rewrite Hed in Hed0. injection Hed0 as ->.
    assert (0 ≤ sd0).
    { apply (IH (length a)) with a d (b ++ t :: suf).
      - rewrite <- Hlen, length_app. simpl. lia.
      - done.
      - rewrite Hl, <- app_assoc. done.
      - done. }
    specialize (Hdur d Hdl). lia. }
  intros t s Hs.
  assert (Ht : t ∈ l) by (apply (fi_start _ _ _ _ fwd); by eexists).
  apply list_elem_of_split in Ht as (pre & suf & Hl).
  by eapply H.
Qed.
End CriticalMore.

(** What [calculate_critical_path] returns on a valid table. *)
Lemma valid_critical_path tasks cp total :
  valid tasks → calculate_critical_path tasks = Ok (cp, total) →
  ∃ l sd ed,
    times_spec (task_dict tasks) l sd ed
    ∧ find_earliest_latest_start_finish tasks = Ok (sd, ed, sd, ed)
    ∧ (∀ r, r ∈ tasks → task r ∈ l)
    ∧ extract (task_dict tasks) (Times l sd ed sd ed) = Ok (cp, total).
Proof.
  intros Hv Hcp.
  destruct (valid_times tasks Hv) as (l & sd & ed & Hspec & Hok & Hall).
  exists l, sd, ed. split_and!; [done|by rewrite (find_compute_times _ _ Hok)|done|].
  rewrite calculate_critical_path_extract, Hok in Hcp. done.
Qed.

Lemma valid_nonempty_critical_path tasks :
  valid tasks → tasks ≠ [] → ∃ cp total, calculate_critical_path tasks = Ok (cp, total).
Proof.
  intros Hv Hne.
  destruct (valid_times tasks Hv) as (l & sd & ed & [_ Horder Hfwd _] & Hok & Hall).
  assert (Hl : l ≠ []).
  { destruct tasks as [|r0 ?]; [done|]. intros ->.
    assert (H : task r0 ∈ []) by (apply Hall; left). by apply elem_of_nil in H. }
  destruct (end_values_nonempty _ l sd ed Horder Hfwd Hl) as [m Hm].
  destruct (extract_spec _ l sd ed Horder Hfwd m Hm) as (cp & Hex & _).
  exists cp, m. rewrite calculate_critical_path_extract, Hok. done.
Qed.

(** X8: on every valid, non-empty table the tasks of the critical path
    follow one another in time without gap or overlap: the first starts at
    0, each next one has its earliest start at the earliest finish of the
    one before, and the last finishes at the total duration. *)
Theorem critical_path_links tasks :
  valid tasks → tasks ≠ [] →
  ∃ cp total es ef ls lf,
    calculate_critical_path tasks = Ok (cp, total)
    ∧ find_earliest_latest_start_finish tasks = Ok (es, ef, ls, lf)
    ∧ linked es ef 0 cp total.
Proof.
  intros Hv Hne.
  destruct (valid_nonempty_critical_path tasks Hv Hne) as (cp & total & Hcp).
  destruct (valid_critical_path tasks cp total Hv Hcp)
    as (l & sd & ed & [_ Horder Hfwd _] & Hfind & _ & Hex).
  exists cp, total, sd, ed, sd, ed. split_and!; [done|done|].
  by apply (extract_linked _ l sd ed Horder Hfwd cp total Hex).
Qed.

Lemma critical_path_links_witness :
  valid sample ∧ sample ≠ []
  ∧ ∃ cp total es ef ls lf,
      calculate_critical_path sample = Ok (cp, total)
      ∧ find_earliest_latest_start_finish sample = Ok (es, ef, ls, lf)
      ∧ linked es ef 0 cp total.
Proof.
  assert (Hne : sample ≠ []) by discriminate.
  split; [exact sample_valid|]. split; [exact Hne|].
  exact (critical_path_links sample sample_valid Hne).
Defined.

(** X9: whatever the table, a critical path that is returned is taken from
    [topo_order] in order: it is a subsequence of it, so it lists no task
    twice and lists every task after the path tasks that Kahn's loop placed
    before it. *)
Theorem critical_path_sublist tasks cp total :
  calculate_critical_path tasks = Ok (cp, total) →
  ∃ l, topo_order (task_dict tasks) = Ok l ∧ cp `sublist_of` l ∧ NoDup cp.
Proof.
  intros Hcp. set (td := task_dict tasks).
  pose proof (task_dict_NoDup tasks) as Hnd. fold td in Hnd.
  destruct (compute_times_spec td Hnd) as (l & sd & ed & [Htopo Horder Hfwd Hcomp]).
  rewrite calculate_critical_path_extract in Hcp. fold td in Hcp.
  destruct Hcomp as [Hok|(k & _ & Hr)]; [|by rewrite Hr in Hcp].
  rewrite Hok in Hcp. cbn [bind] in Hcp.
  destruct (extract_linked td l sd ed Horder Hfwd cp total Hcp) as (_ & Hsub & _).
  exists l. split_and!; [done|done|].
  exact (sublist_NoDup _ _ (ts_nodup _ _ Horder) Hsub).
Qed.

Lemma critical_path_sublist_witness :
  calculate_critical_path sample = Ok (["T1"; "T2"; "T4"], 12)
  ∧ ∃ l, topo_order (task_dict sample) = Ok l
         ∧ ["T1"; "T2"; "T4"] `sublist_of` l ∧ NoDup ["T1"; "T2"; "T4"].
Proof.
  assert (H : calculate_critical_path sample = Ok (["T1"; "T2"; "T4"], 12)).
  { vm_compute. reflexivity. }
  split; [exact H|].
  exact (critical_path_sublist sample ["T1"; "T2"; "T4"] 12 H).
Defined.

(** X10: on every valid table whose durations are non-negative, every task
    has a non-negative earliest start, no later than its earliest
    finish. *)
Theorem earliest_times_nonneg tasks :
  valid tasks → (∀ r, r ∈ tasks → 0 ≤ duration r) →
  ∃ es ef ls lf,
    find_earliest_latest_start_finish tasks = Ok (es, ef, ls, lf)
    ∧ ∀ r, r ∈ tasks →
        ∃ s f, es !! task r = Some s ∧ ef !! task r = Some f ∧ 0 ≤ s ≤ f.
Proof.
  intros Hv Hdur.
  destruct (valid_times tasks Hv) as (l & sd & ed & [_ Horder Hfwd _] & Hok & Hall).
  pose proof (valid_duplicate_free _ Hv) as Hdf.
  exists sd, ed, sd, ed. rewrite (find_compute_times _ _ Hok). simpl.
  split; [done|]. intros r Hr.
  destruct (fi_eqs _ _ _ _ Hfwd (task r) (Hall r Hr)) as (s & Hs & He & _).
  exists s, (s + dur (task_dict tasks) (task r)). split_and!; [done|done| |].
  - apply (start_nonneg _ l sd ed Horder Hfwd) with (task r); [|done].
    intros t Ht. apply (ts_keys _ _ Horder) in Ht.
    rewrite keys_task_dict in Ht by done.
    apply list_elem_of_fmap in Ht as (r' & -> & Hr').
    rewrite dur_task_dict by done. by apply Hdur.
  - rewrite dur_task_dict by done. specialize (Hdur r Hr). lia.
Qed.

Lemma sample_nonneg : ∀ r, r ∈ sample → 0 ≤ duration r.
Proof.
  intros r Hr. apply list_elem_of_In in Hr. simpl in Hr.
  destruct Hr as [<-|[<-|[<-|[<-|[]]]]]; simpl; lia.
Qed.

Lemma earliest_times_nonneg_witness :
  valid sample
  ∧ ∃ es ef ls lf,
      find_earliest_latest_start_finish sample = Ok (es, ef, ls, lf)
      ∧ ∀ r, r ∈ sample →
          ∃ s f, es !! task r = Some s ∧ ef !! task r = Some f ∧ 0 ≤ s ≤ f.
Proof.
  split; [exact sample_valid|].
  exact (earliest_times_nonneg sample sample_valid sample_nonneg).
Defined.

(** A chain of dependent rows fits between the earliest start of its
    first row and the total. *)
Lemma dep_chain_bound tasks sd ed total :
  duplicate_free tasks →
  (∀ r, r ∈ tasks → earliest (task_dict tasks) sd ed (task r)) →
  (∀ t f, ed !! t = Some f → f ≤ total) →
  ∀ rs r s, dep_chain (r :: rs) → (∀ x, x ∈ r :: rs → x ∈ tasks) →
    sd !! task r = Some s → s + total_duration (r :: rs) ≤ total.
Proof.
  intros Hdf Heq Hub. induction rs as [|r' rs IH]; intros r s Hc Hin Hs.
  - assert (Hr : r ∈ tasks) by (apply Hin; left).
    destruct (Heq r Hr) as (s' & Hs' & He & _).
    rewrite Hs in Hs'. injection Hs' as <-.
    rewrite dur_task_dict in He by done. simpl.
    specialize (Hub _ _ He). lia.
  - destruct Hc as [Hd Hc].
    assert (Hr : r ∈ tasks) by (apply Hin; left).
    assert (Hr' : r' ∈ tasks) by (apply Hin; right; left).
    destruct (Heq r Hr) as (s0 & Hs0 & He & _).
    rewrite Hs in Hs0. injection Hs0 as <-.
    rewrite dur_task_dict in He by done.
    destruct (earliest_row tasks sd ed r' Hdf Hr' (Heq r' Hr'))
      as (s' & Hs' & _ & _ & Hmax).
    destruct Hmax as [Hall _].
    { intros Hnil. rewrite Hnil in Hd. by apply elem_of_nil in Hd. }
    destruct (Hall _ Hd) as (f & Hf & Hle). rewrite He in Hf. injection Hf as <-.
    assert (Hrec : s' + total_duration (r' :: rs) ≤ total).
    { apply IH; [done| |done]. intros x Hx. apply Hin. by right. }
    change (total_duration (r :: r' :: rs))
      with (duration r + total_duration (r' :: rs)). lia.
Qed.

(** X11: on every valid table whose durations are non-negative, the total
    duration that [calculate_critical_path] returns is at least the summed
    duration of every chain of tasks in which each task depends on the one
    before. *)
Theorem total_bounds_every_chain tasks cp total rs :
  valid tasks → (∀ r, r ∈ tasks → 0 ≤ duration r) →
  calculate_critical_path tasks = Ok (cp, total) →
  (∀ r, r ∈ rs → r ∈ tasks) → dep_chain rs →
  total_duration rs ≤ total.
Proof.
  intros Hv Hdur Hcp Hin Hc.
  destruct (valid_critical_path tasks cp total Hv Hcp)
    as (l & sd & ed & [_ Horder Hfwd _] & Hfind & Hall & Hex).
  pose proof (valid_duplicate_free _ Hv) as Hdf.
  destruct (extract_linked _ l sd ed Horder Hfwd cp total Hex)
    as (_ & _ & Hub & (t0 & Ht0 & Htot)).
  assert (Hnn : ∀ t s, sd !! t = Some s → 0 ≤ s).
  { apply (start_nonneg _ l sd ed Horder Hfwd).
    intros t Ht. apply (ts_keys _ _ Horder) in Ht.
    rewrite keys_task_dict in Ht by done.
    apply list_elem_of_fmap in Ht as (r' & -> & Hr').
    rewrite dur_task_dict by done. by apply Hdur. }
  destruct rs as [|r rs].
  - simpl. destruct (fi_eqs _ _ _ _ Hfwd t0 Ht0) as (s & Hs & He & _).
    rewrite Htot in He. injection He as ->.
    specialize (Hnn _ _ Hs).
    apply (ts_keys _ _ Horder) in Ht0. rewrite keys_task_dict in Ht0 by done.
    apply list_elem_of_fmap in Ht0 as (r' & -> & Hr').
    rewrite dur_task_dict by done. specialize (Hdur r' Hr'). lia.
  - assert (Hr : r ∈ tasks) by (apply Hin; left).
    destruct (fi_eqs _ _ _ _ Hfwd (task r) (Hall r Hr)) as (s & Hs & _).
    pose proof (dep_chain_bound tasks sd ed total Hdf
                  (λ x Hx, fi_eqs _ _ _ _ Hfwd (task x) (Hall x Hx)) Hub
                  rs r s Hc Hin Hs) as Hb.
    specialize (Hnn _ _ Hs). lia.
Qed.

Lemma total_bounds_every_chain_witness :
  valid sample
  ∧ (∀ r, r ∈ sample → 0 ≤ duration r)
  ∧ calculate_critical_path sample = Ok (["T1"; "T2"; "T4"], 12)
  ∧ (∀ r, r ∈ [Row "T1" "-" 5; Row "T3" "T1" 2; Row "T4" "T2, T3" 4] → r ∈ sample)
  ∧ dep_chain [Row "T1" "-" 5; Row "T3" "T1" 2; Row "T4" "T2, T3" 4]
  ∧ total_duration [Row "T1" "-" 5; Row "T3" "T1" 2; Row "T4" "T2, T3" 4] ≤ 12.
Proof.
  assert (Hcp : calculate_critical_path sample = Ok (["T1"; "T2"; "T4"], 12)).
  { vm_compute. reflexivity. }
  assert (Hin : ∀ r, r ∈ [Row "T1" "-" 5; Row "T3" "T1" 2; Row "T4" "T2, T3" 4]
                     → r ∈ sample).
  { intros r Hr. apply list_elem_of_In in Hr. apply list_elem_of_In. simpl in *. tauto. }
  assert (Hc : dep_chain [Row "T1" "-" 5; Row "T3" "T1" 2; Row "T4" "T2, T3" 4]).
  { split; [|split; [|exact I]]; apply list_elem_of_In; vm_compute; tauto. }
  split; [exact sample_valid|]. split; [exact sample_nonneg|].
  split; [exact Hcp|]. split; [exact Hin|]. split; [exact Hc|].
  exact (total_bounds_every_chain sample _ 12 _ sample_valid sample_nonneg Hcp Hin Hc).
Defined.

(** ** The bars of [draw_gantt_chart] *)

Lemma gantt_step_Ok bars g r :
  ∃ s, gantt_step (bars, g) r
       = Ok (bars ++ [Bar (task r) s (s + duration r)],
             <[task r := s + duration r]> g)
       ∧ (depends r = "-" → s = 0)
       ∧ (depends r ≠ "-" →
          py_max (get_or_zero g <$> split (depends r)) = Ok s).
Proof.
  unfold gantt_step. destruct (String.eqb_spec (depends r) "-") as [Heq|Hne].
  - exists 0. by split_and!.
  - destruct (split (depends r)) as [|d ds] eqn:Hs.
    { by apply split_on_nonempty in Hs. }
    destruct (py_max_cons (get_or_zero g d) (get_or_zero g <$> ds)) as [m Hm].
    exists m. rewrite fmap_cons, Hm. by split_and!.
Qed.

Lemma gantt_loop_Ok tasks : ∀ bars g,
  ∃ bars' g',
    gantt_loop tasks (bars, g) = Ok (bars ++ bars', g')
    ∧ Forall2 (λ r b, bar_task b = task r
                      ∧ bar_finish b = bar_start b + duration r
                      ∧ (depends r = "-" → bar_start b = 0)) tasks bars'.
Proof.
  induction tasks as [|r tasks IH]; intros bars g.
  - exists [], g. simpl. rewrite app_nil_r. split; [done|constructor].
  - destruct (gantt_step_Ok bars g r) as (s & Hstep & H0 & _).
    cbn [gantt_loop]. rewrite Hstep. cbn [bind].
    destruct (IH (bars ++ [Bar (task r) s (s + duration r)])
                 (<[task r := s + duration r]> g)) as (bars' & g' & Hloop & Hall).
    exists (Bar (task r) s (s + duration r) :: bars'), g'.
    rewrite Hloop, <- app_assoc. split; [done|]. by constructor.
Qed.

(** Once the duration cells are read, the bar computation of
    [draw_gantt_chart] does not raise. *)
Lemma gantt_data_Ok tasks :
  ∃ bars,
    gantt_data tasks = Ok bars
    ∧ Forall2 (λ r b, bar_task b = task r
                      ∧ bar_finish b = bar_start b + duration r
                      ∧ (depends r = "-" → bar_start b = 0)) tasks bars.
Proof.
  destruct (gantt_loop_Ok tasks [] ∅) as (bars & g & Hloop & Hall).
  exists bars. unfold gantt_data. rewrite Hloop. done.
Qed.

Lemma deps_of_split r : depends r ≠ "-" → deps_of r = split (depends r).
Proof.
  intros Hne. unfold deps_of, parse_depends.
  by destruct (String.eqb_spec (depends r) "-").
Qed.

Lemma deps_of_sentinel r : depends r = "-" → deps_of r = [].
Proof. intros Heq. unfold deps_of, parse_depends. by rewrite Heq. Qed.

Lemma gantt_loop_matches tasks sd ed :
  table_ordered tasks →
  (∀ r, r ∈ tasks →
     ∃ s, sd !! task r = Some s
       ∧ ed !! task r = Some (s + duration r)
       ∧ (deps_of r = [] → s = 0)
       ∧ (deps_of r ≠ [] →
            (∀ d, d ∈ deps_of r → ∃ f, ed !! d = Some f ∧ f ≤ s)
            ∧ (∃ d, d ∈ deps_of r ∧ ed !! d = Some s))) →
  ∀ suf pre bars g,
    tasks = pre ++ suf →
    (∀ t, t ∈ names pre → g !! t = ed !! t) →
    ∃ bars' g',
      gantt_loop suf (bars, g) = Ok (bars ++ bars', g')
      ∧ Forall2 (bar_matches sd ed) suf bars'.
Proof.
  intros Hord Heq. induction suf as [|r suf IH]; intros pre bars g Hl Hg.
  - exists [], g. simpl. rewrite app_nil_r. split; [done|constructor].
  - assert (Hr : r ∈ tasks).
    { rewrite Hl. apply elem_of_app. right. left. }
    destruct (Heq r Hr) as (s & Hs & He & H0 & H1).
    destruct (gantt_step_Ok bars g r) as (s' & Hstep & G0 & G1).
    assert (Hss : s' = s).
    { destruct (decide (depends r = "-")) as [Hd|Hd].
      - rewrite (G0 Hd), (H0 (deps_of_sentinel r Hd)). done.
      - specialize (G1 Hd). apply py_max_spec in G1 as [Gub Gatt].
        assert (Hnn : deps_of r ≠ []).
        { rewrite deps_of_split by done. apply split_on_nonempty. }
        destruct (H1 Hnn) as [Hub (d0 & Hd0 & Hatt)].
        rewrite deps_of_split in Hub, Hd0 by done.
        assert (Hget : ∀ d, d ∈ split (depends r) →
                       ed !! d = Some (get_or_zero g d)).
        { intros d Hd'. unfold get_or_zero. rewrite Hg.
          - destruct (Hub d Hd') as (f & -> & _). done.
          - apply (Hord pre r suf Hl). by rewrite deps_of_split. }
        apply Z.le_antisymm.
        + apply list_elem_of_fmap in Gatt as (d & -> & Hd').
          destruct (Hub d Hd') as (f & Hf & Hle).
          rewrite (Hget d Hd') in Hf. injection Hf as <-. done.
        + apply Gub. apply list_elem_of_fmap. exists d0. split; [|done].
          specialize (Hget d0 Hd0). rewrite Hatt in Hget. by injection Hget. }
    subst s'. cbn [gantt_loop]. rewrite Hstep. cbn [bind].
    destruct (IH (pre ++ [r]) (bars ++ [Bar (task r) s (s + duration r)])
                 (<[task r := s + duration r]> g)) as (bars' & g' & Hloop & Hall).
    + by rewrite <- app_assoc.
    + intros t Ht. unfold names in Ht. rewrite fmap_app, elem_of_app in Ht.
      simpl in Ht. rewrite list_elem_of_singleton in Ht.
      destruct (decide (t = task r)) as [->|Hne].
      * by rewrite lookup_insert_eq.
      * rewrite lookup_insert_ne by done. apply Hg. tauto.
    + exists (Bar (task r) s (s + duration r) :: bars'), g'.
      rewrite Hloop, <- app_assoc. split; [done|]. by constructor.
Qed.

(** X13: on every valid table that lists each task after the tasks it
    depends on, the bars of the chart are the engine's schedule: the bar of
    a row runs from the earliest start to the earliest finish that
    [find_earliest_latest_start_finish] returns for its task. *)
Theorem gantt_matches_engine tasks :
  valid tasks → table_ordered tasks →
  ∃ es ef ls lf bars,
    find_earliest_latest_start_finish tasks = Ok (es, ef, ls, lf)
    ∧ gantt_data tasks = Ok bars
    ∧ Forall2 (bar_matches es ef) tasks bars.
Proof.
  intros Hv Hord.
  destruct (valid_times tasks Hv) as (l & sd & ed & Hspec & Hok & Hall).
  destruct (gantt_loop_matches tasks sd ed Hord) with tasks (@nil row) (@nil bar)
    (∅ : gmap string Z) as (bars & g & Hloop & Hbars).
  - intros r Hr.
    apply (earliest_row tasks sd ed r (valid_duplicate_free _ Hv) Hr).
    apply (fi_eqs _ _ _ _ (tm_fwd _ _ _ _ Hspec)). by apply Hall.
  - done.
  - intros t Ht. by apply elem_of_nil in Ht.
  - exists sd, ed, sd, ed, bars. rewrite (find_compute_times _ _ Hok).
    unfold gantt_data. rewrite Hloop. done.
Qed.

Lemma table_orderedb_sound tasks : ∀ seen,
  table_orderedb seen tasks = true →
  ∀ a r b, tasks = a ++ r :: b → ∀ d, d ∈ deps_of r → d ∈ seen ++ names a.
Proof.
  induction tasks as [|r0 tasks IH]; intros seen Hb a r b Hl d Hd.
  - by destruct a.
  - cbn [table_orderedb] in Hb. apply andb_true_iff in Hb as [Hb1 Hb2].
    destruct a as [|r1 a]; simpl in Hl; injection Hl as -> ->.
    + rewrite app_nil_r. rewrite forallb_forall in Hb1.
      apply list_elem_of_In, Hb1 in Hd. by apply bool_decide_eq_true in Hd.
    + specialize (IH _ Hb2 a r b eq_refl d Hd).
      unfold names. simpl. by rewrite <- app_assoc in IH.
Qed.

Lemma sample_ordered : table_ordered sample.
Proof.
  intros a r b Hl d Hd.
  apply (table_orderedb_sound sample [] eq_refl a r b Hl d Hd).
Qed.

Lemma gantt_matches_engine_witness :
  valid sample ∧ table_ordered sample
  ∧ ∃ es ef ls lf bars,
      find_earliest_latest_start_finish sample = Ok (es, ef, ls, lf)
      ∧ gantt_data sample = Ok bars
      ∧ Forall2 (bar_matches es ef) sample bars.
Proof.
  split; [exact sample_valid|]. split; [exact sample_ordered|].
  exact (gantt_matches_engine sample sample_valid sample_ordered).
Defined.

(** ** The schedule does not depend on the order of the rows *)

Lemma depends_on_Permutation tasks tasks' t d :
  tasks ≡ₚ tasks' → depends_on tasks t d → depends_on tasks' t d.
Proof.
  intros Hp (r & Hr & Ht & Hd). exists r. split; [|done]. by rewrite <- Hp.
Qed.

Lemma valid_Permutation tasks tasks' :
  tasks ≡ₚ tasks' → valid tasks → valid tasks'.
Proof.
  intros Hp [Hdf Hres Hac]. split.
  - unfold duplicate_free, names in *. by rewrite <- Hp.
  - intros t d Hd. unfold names. rewrite <- Hp. apply (Hres t d).
    by apply (depends_on_Permutation tasks' tasks).
  - intros t Htc. apply (Hac t). apply (tc_impl (depends_on tasks')); [|done].
    intros a b. by apply depends_on_Permutation.
Qed.

(** The forward equations have one solution along a sorted order. *)
Lemma earliest_unique tasks l sd ed sd' ed' :
  duplicate_free tasks →
  topo_spec (task_dict tasks) l →
  (∀ t, t ∈ l → earliest (task_dict tasks) sd ed t) →
  (∀ t, t ∈ l → earliest (task_dict tasks) sd' ed' t) →
  ∀ t, t ∈ l → sd !! t = sd' !! t ∧ ed !! t = ed' !! t.
Proof.
  intros Hdf Horder H1 H2.
  assert (H : ∀ n pre t suf, length pre = n → l = pre ++ t :: suf →
                sd !! t = sd' !! t ∧ ed !! t = ed' !! t).
  { induction n as [n IH] using lt_wf_ind. intros pre t suf Hlen Hl.
    assert (Ht : t ∈ l).
    { rewrite Hl. apply elem_of_app. right. left. }
    assert (Hpre : ∀ d, d ∈ deps (task_dict tasks) t → ed !! d = ed' !! d).
    { intros d Hd.
      assert (Hdp : d ∈ pre) by (by eapply (ts_sorted _ _ Horder)).
      apply list_elem_of_split in Hdp as (a & b & ->).
      apply (IH (length a)) with a (b ++ t :: suf).
      - rewrite <- Hlen, length_app. simpl. lia.
      - done.
      - by rewrite Hl, <- app_assoc. }
    destruct (H1 t Ht) as (s & Hs & He & A0 & A1).
    destruct (H2 t Ht) as (s' & Hs' & He' & B0 & B1).
    assert (Hss : s = s').
    { destruct (decide (deps (task_dict tasks) t = [])) as [Hnil|Hnn].
      - by rewrite (A0 Hnil), (B0 Hnil).
      - destruct (A1 Hnn) as [Aub (da & Hda & Aatt)].
        destruct (B1 Hnn) as [Bub (db & Hdb & Batt)].
        apply Z.le_antisymm.
        + destruct (Bub da Hda) as (f & Hf & Hle).
          rewrite <- (Hpre da Hda), Aatt in Hf. by injection Hf as <-.
        + destruct (Aub db Hdb) as (f & Hf & Hle).
          rewrite (Hpre db Hdb), Batt in Hf. by injection Hf as <-. }
    subst s'. by rewrite Hs, Hs', He, He'. }
  intros t Ht. apply list_elem_of_split in Ht as (pre & suf & Hl). by eapply H.
Qed.

Lemma earliest_Permutation tasks tasks' sd ed t :
  duplicate_free tasks → tasks ≡ₚ tasks' → t ∈ names tasks →
  earliest (task_dict tasks') sd ed t → earliest (task_dict tasks) sd ed t.
Proof.
  intros Hdf Hp Ht.
  assert (Hdf' : duplicate_free tasks').
  { unfold duplicate_free, names in *. by rewrite <- Hp. }
  apply list_elem_of_fmap in Ht as (r & -> & Hr).
  assert (Hr' : r ∈ tasks') by (by rewrite <- Hp).
  unfold earliest.
  by rewrite !(deps_task_dict tasks), !(deps_task_dict tasks'),
    !(dur_task_dict tasks), !(dur_task_dict tasks').
Qed.

(** X14: the schedule of a valid table does not depend on the order of its
    rows: after any reordering, [find_earliest_latest_start_finish] returns
    the same four maps and [calculate_critical_path] the same total
    duration (the path itself may differ, ties being broken by order). *)
Theorem schedule_order_independent tasks tasks' :
  valid tasks → tasks ≡ₚ tasks' →
  (∃ es ef,
     find_earliest_latest_start_finish tasks = Ok (es, ef, es, ef)
     ∧ find_earliest_latest_start_finish tasks' = Ok (es, ef, es, ef))
  ∧ (∀ cp total, calculate_critical_path tasks = Ok (cp, total) →
       ∃ cp', calculate_critical_path tasks' = Ok (cp', total)).
Proof.
  intros Hv Hp. pose proof (valid_Permutation _ _ Hp Hv) as Hv'.
  pose proof (valid_duplicate_free _ Hv) as Hdf.
  pose proof (valid_duplicate_free _ Hv') as Hdf'.
  destruct (valid_times tasks Hv) as (l & sd & ed & Hspec & Hok & Hall).
  destruct (valid_times tasks' Hv') as (l' & sd' & ed' & Hspec' & Hok' & Hall').
  destruct Hspec as [_ Horder Hfwd _]. destruct Hspec' as [_ Horder' Hfwd' _].
  assert (Hnames : ∀ t, t ∈ l ↔ t ∈ names tasks).
  { intros t. split.
    - intros Ht. rewrite <- keys_task_dict by done. by apply (ts_keys _ _ Horder).
    - intros Ht. apply list_elem_of_fmap in Ht as (r & -> & Hr). by apply Hall. }
  assert (Hnames' : ∀ t, t ∈ l' ↔ t ∈ names tasks).
  { intros t. unfold names. rewrite Hp. split.
    - intros Ht. fold (names tasks'). rewrite <- keys_task_dict by done.
      by apply (ts_keys _ _ Horder').
    - intros Ht. apply list_elem_of_fmap in Ht as (r & -> & Hr). by apply Hall'. }
  assert (Hsame : ∀ t, t ∈ l → sd !! t = sd' !! t ∧ ed !! t = ed' !! t).
  { apply (earliest_unique tasks l sd ed sd' ed' Hdf Horder).
    - apply Hfwd.
    - intros t Ht. apply (earliest_Permutation tasks tasks'); [done|done| |].
      + by apply Hnames.
      + apply (fi_eqs _ _ _ _ Hfwd'). by apply Hnames', Hnames. }
  assert (Hsd : sd' = sd).
  { apply map_eq. intros t. destruct (decide (t ∈ l)) as [Ht|Ht].
    - symmetry. by apply Hsame.
    - assert (sd !! t = None) as ->.
      { apply eq_None_not_Some. intros H. by apply (fi_start _ _ _ _ Hfwd) in H. }
      apply eq_None_not_Some. intros H. apply (fi_start _ _ _ _ Hfwd') in H.
      by apply Ht, Hnames, Hnames'. }
  assert (Hed : ed' = ed).
  { apply map_eq. intros t. destruct (decide (t ∈ l)) as [Ht|Ht].
    - symmetry. by apply Hsame.
    - assert (ed !! t = None) as ->.
      { apply eq_None_not_Some. intros H. by apply (fi_end _ _ _ _ Hfwd) in H. }
      apply eq_None_not_Some. intros H. apply (fi_end _ _ _ _ Hfwd') in H.
      by apply Ht, Hnames, Hnames'. }
  subst sd' ed'. split.
  - exists sd, ed.
    by rewrite (find_compute_times _ _ Hok), (find_compute_times _ _ Hok').
  - intros cp total Hcp.
    rewrite calculate_critical_path_extract, Hok in Hcp. cbn [bind] in Hcp.
    destruct (py_max (end_values ed)) as [m| |] eqn:Hm.
    + destruct (extract_spec _ l sd ed Horder Hfwd m Hm) as (cp0 & Hex & _).
      rewrite Hex in Hcp. injection Hcp as <- <-.
      destruct (extract_spec _ l' sd ed Horder' Hfwd' m Hm) as (cp' & Hex' & _).
      exists cp'. rewrite calculate_critical_path_extract, Hok'. done.
    + unfold extract in Hcp. simpl in Hcp. by rewrite Hm in Hcp.
    + unfold extract in Hcp. simpl in Hcp. by rewrite Hm in Hcp.
Qed.

Lemma schedule_order_independent_witness :
  valid sample ∧ sample ≡ₚ reverse sample
  ∧ (∃ es ef,
       find_earliest_latest_start_finish sample = Ok (es, ef, es, ef)
       ∧ find_earliest_latest_start_finish (reverse sample) = Ok (es, ef, es, ef))
  ∧ (∀ cp total, calculate_critical_path sample = Ok (cp, total) →
       ∃ cp', calculate_critical_path (reverse sample) = Ok (cp', total)).
Proof.
  assert (Hp : sample ≡ₚ reverse sample).
  { symmetry. apply reverse_Permutation. }
  split; [exact sample_valid|]. split; [exact Hp|].
  exact (schedule_order_independent sample (reverse sample) sample_valid Hp).
Defined.

(** ** [delete_task] *)

Lemma remove_items_sublist table sel : ∀ i,
  remove_items i table sel `sublist_of` table.
Proof.
  induction table as [|r table IH]; intros i; cbn [remove_items]; [done|].
  case_decide; [apply sublist_cons|apply sublist_skip]; apply IH.
Qed.

Lemma remove_items_keeps table sel : ∀ i j r,
  table !! j = Some r → (i + j)%nat ∉ sel → r ∈ remove_items i table sel.
Proof.
  induction table as [|r0 table IH]; intros i j r Hj Hsel; [done|].
  cbn [remove_items]. destruct j as [|j]; simpl in Hj.
  - injection Hj as ->. rewrite Nat.add_0_r in Hsel.
    rewrite decide_False by done. left.
  - assert (Hr : r ∈ remove_items (S i) table sel).
    { apply (IH (S i) j r Hj). by replace (S i + j)%nat with (i + S j)%nat by lia. }
    case_decide; [done|by right].
Qed.

Lemma check_selection_None table sel :
  check_selection table sel = None →
  ∀ i r, i ∈ sel → table !! i = Some r → get_task_dependencies table (task r) = [].
Proof.
  induction sel as [|i0 sel IH]; intros Hc i r Hi Hr.
  - by apply elem_of_nil in Hi.
  - cbn [check_selection] in Hc.
    destruct (table !! i0) as [r0|] eqn:Hr0; [|done].
    destruct (get_task_dependencies table (task r0)) eqn:Hg; [|done].
    apply elem_of_cons in Hi as [->|Hi].
    + rewrite Hr0 in Hr. by injection Hr as <-.
    + by apply (IH Hc i r).
Qed.

Lemma get_task_dependencies_nil table name :
  get_task_dependencies table name = [] →
  ∀ r, r ∈ table → name ∉ split (depends r).
Proof.
  unfold get_task_dependencies. intros H r Hr Hin.
  apply fmap_nil_inv in H.
  by apply (filter_nil_not_elem_of _ _ r H).
Qed.

Lemma deps_of_subseteq_split r d : d ∈ deps_of r → d ∈ split (depends r).
Proof.
  unfold deps_of, parse_depends.
  destruct (String.eqb (depends r) "-"); [|done].
  intros H. by apply elem_of_nil in H.
Qed.

Lemma sublist_fmap_names (l k : list row) :
  l `sublist_of` k → task <$> l `sublist_of` task <$> k.
Proof.
  induction 1 as [|y l k _ IH|y l k _ IH]; simpl; [done| |].
  - by apply sublist_skip.
  - by apply sublist_cons.
Qed.

Lemma check_selection_Some table sel o :
  check_selection table sel = Some o →
  o = ItemNotFound
  ∨ ∃ n, o = CannotDelete n ∧ get_task_dependencies table n ≠ [].
Proof.
  induction sel as [|i sel IH]; [done|]. cbn [check_selection].
  destruct (table !! i) as [r|]; [|intros [= <-]; by left].
  destruct (get_task_dependencies table (task r)) as [|x xs] eqn:Hg; [done|].
  intros [= <-]. right. exists (task r). by rewrite Hg.
Qed.

Lemma sublist_elem_of {A} (l k : list A) x : l `sublist_of` k → x ∈ l → x ∈ k.
Proof.
  induction 1 as [|y l k _ IH|y l k _ IH]; [done| |].
  - rewrite !elem_of_cons. tauto.
  - rewrite elem_of_cons. tauto.
Qed.

(** X15: a deletion that goes through keeps the table valid: from a valid
    table, [delete_task] leaves a table that is a part of the old one, in
    the old order, and is valid again; no remaining task depends on a
    deleted one. *)
Theorem delete_task_keeps_valid table sel table' :
  valid table → delete_task table sel = Deleted table' →
  table' `sublist_of` table ∧ valid table'.
Proof.
  intros [Hdf Hres Hac] Hdel. unfold delete_task in Hdel.
  destruct sel as [|i0 sel0] eqn:Hsel; [done|]. rewrite <- Hsel in *. clear Hsel.
  destruct (check_selection table sel) as [o|] eqn:Hc.
  { subst o. by destruct (check_selection_Some _ _ _ Hc) as [?|(n & ? & _)]. }
  injection Hdel as <-.
  pose proof (remove_items_sublist table sel 0%nat) as Hsub.
  split; [done|]. split.
  - unfold duplicate_free, names in *.
    eapply sublist_NoDup; [exact Hdf|]. by apply sublist_fmap_names.
  - intros t d (r & Hr & Ht & Hd).
    assert (Hrt : r ∈ table) by (by eapply sublist_elem_of).
    assert (Hdn : d ∈ names table) by (apply (Hres t d); by exists r).
    apply list_elem_of_fmap in Hdn as (rd & -> & Hrd).
    apply list_elem_of_lookup in Hrd as [j Hj].
    apply list_elem_of_fmap. exists rd. split; [done|].
    apply (remove_items_keeps table sel 0%nat j rd Hj). simpl. intros Hjs.
    pose proof (check_selection_None table sel Hc j rd Hjs Hj) as Hnil.
    apply (get_task_dependencies_nil _ _ Hnil r Hrt).
    by apply deps_of_subseteq_split.
  - intros t Htc. apply (Hac t). apply (tc_impl (depends_on (remove_items 0 table sel))); [|done].
    intros a b (r & Hr & Ht & Hd). exists r. split; [|done].
    by eapply sublist_elem_of.
Qed.

Lemma delete_task_keeps_valid_witness :
  valid sample
  ∧ delete_task sample [3%nat]
    = Deleted [Row "T1" "-" 5; Row "T2" "T1" 3; Row "T3" "T1" 2]
  ∧ [Row "T1" "-" 5; Row "T2" "T1" 3; Row "T3" "T1" 2] `sublist_of` sample
  ∧ valid [Row "T1" "-" 5; Row "T2" "T1" 3; Row "T3" "T1" 2].
Proof.
  assert (Hd : delete_task sample [3%nat]
               = Deleted [Row "T1" "-" 5; Row "T2" "T1" 3; Row "T3" "T1" 2]).
  { vm_compute. reflexivity. }
  split; [exact sample_valid|]. split; [exact Hd|].
  exact (delete_task_keeps_valid sample [3%nat] _ sample_valid Hd).
Defined.

(** X16: [delete_task] refuses to delete a task that some row of the table
    names in its dependency cell: if a selected row's task occurs among the
    [", "]-separated pieces of any row's cell, the table is left as it is
    and the outcome is the warning, for a selected task that is named in
    some cell (or the failure on a stale item). *)
Theorem delete_task_blocked table sel i r r' :
  i ∈ sel → table !! i = Some r → r' ∈ table → task r ∈ split (depends r') →
  delete_task table sel = ItemNotFound
  ∨ ∃ n, delete_task table sel = CannotDelete n
         ∧ get_task_dependencies table n ≠ [].
Proof.
  intros Hi Hr Hr' Hin. unfold delete_task.
  destruct sel as [|i0 sel0] eqn:Hsel; [by apply elem_of_nil in Hi|].
  rewrite <- Hsel in *. clear Hsel.
  destruct (check_selection table sel) as [o|] eqn:Hc.
  - destruct (check_selection_Some _ _ _ Hc) as [->|(n & -> & Hn)]; [by left|].
    right. by exists n.
  - pose proof (check_selection_None table sel Hc i r Hi Hr) as Hnil.
    by destruct (get_task_dependencies_nil _ _ Hnil r' Hr').
Qed.

Lemma delete_task_blocked_witness :
  (0%nat ∈ [0%nat]) ∧ sample !! 0%nat = Some (Row "T1" "-" 5)
  ∧ Row "T2" "T1" 3 ∈ sample
  ∧ task (Row "T1" "-" 5) ∈ split (depends (Row "T2" "T1" 3))
  ∧ (delete_task sample [0%nat] = ItemNotFound
     ∨ ∃ n, delete_task sample [0%nat] = CannotDelete n
            ∧ get_task_dependencies sample n ≠ []).
Proof.
  assert (H1 : 0%nat ∈ [0%nat]) by left.
  assert (H2 : sample !! 0%nat = Some (Row "T1" "-" 5)) by reflexivity.
  assert (H3 : Row "T2" "T1" 3 ∈ sample) by (right; left).
  assert (H4 : task (Row "T1" "-" 5) ∈ split (depends (Row "T2" "T1" 3))).
  { apply list_elem_of_In. vm_compute. tauto. }
  split; [exact H1|]. split; [exact H2|]. split; [exact H3|]. split; [exact H4|].
  exact (delete_task_blocked sample [0%nat] 0%nat _ _ H1 H2 H3 H4).
Defined.

(** ** The cells written back by [on_calculate_and_draw] *)

(** X17: whenever the redraw goes through on a non-empty table, every row
    keeps its place; a row whose task Kahn's loop ordered gets four
    numbers, the latest start equal to the earliest start and the latest
    finish equal to the earliest finish; a row whose task was left out
    gets ['N/A'] in all four cells. *)
Theorem table_update_cells tasks rows :
  table_update tasks = Ok (Some rows) →
  ∃ l, topo_order (task_dict tasks) = Ok l
    ∧ rows.*1 = tasks
    ∧ Forall (λ rc : row * cells,
        (task rc.1 ∈ l ∧ ∃ s f, rc.2 = (Some s, Some f, Some s, Some f))
        ∨ ((task rc.1 ∉ l) ∧ rc.2 = (None, None, None, None))) rows.
Proof.
  intros Hup.
  assert (Hdraw : on_calculate_and_draw tasks
    = (sched <- find_earliest_latest_start_finish tasks ;;
       cp <- calculate_critical_path tasks ;; Ok (Some (sched, cp)))).
  { destruct tasks; [done|done]. }
  unfold table_update in Hup. rewrite Hdraw in Hup. clear Hdraw.
  set (td := task_dict tasks).
  pose proof (task_dict_NoDup tasks) as Hnd. fold td in Hnd.
  destruct (compute_times_spec td Hnd) as (l & sd & ed & [Htopo Horder Hfwd Hcomp]).
  exists l. split; [done|].
  destruct Hcomp as [Hok|(k & _ & Hr)].
  2:{ unfold find_earliest_latest_start_finish in Hup. fold td in Hup.
      by rewrite Hr in Hup. }
  rewrite (find_compute_times _ _ Hok) in Hup. cbn [bind] in Hup.
  destruct (calculate_critical_path tasks) as [cp| |]; [|done|done].
  cbn [bind] in Hup. injection Hup as <-. simpl. split.
  - rewrite <- list_fmap_compose. apply list_fmap_id.
  - apply Forall_fmap, Forall_forall. intros r _. simpl.
    destruct (decide (task r ∈ l)) as [Ht|Ht].
    + left. split; [done|].
      destruct (fi_eqs _ _ _ _ Hfwd _ Ht) as (s & Hs & He & _).
      exists s, (s + dur td (task r)). by rewrite Hs, He.
    + right. split; [done|].
      assert (sd !! task r = None) as ->.
      { apply eq_None_not_Some. intros H. by apply (fi_start _ _ _ _ Hfwd) in H. }
      assert (ed !! task r = None) as ->; [|done].
      apply eq_None_not_Some. intros H. by apply (fi_end _ _ _ _ Hfwd) in H.
Qed.

Lemma table_update_cells_witness :
  table_update dangling_input
  = Ok (Some [(Row "A" "-" 1, (Some 0, Some 1, Some 0, Some 1));
              (Row "B" "X" 2, (None, None, None, None))])
  ∧ ∃ l, topo_order (task_dict dangling_input) = Ok l
      ∧ [(Row "A" "-" 1, (Some 0, Some 1, Some 0, Some 1));
         (Row "B" "X" 2, (None, None, None, None))].*1 = dangling_input
      ∧ Forall (λ rc : row * cells,
          (task rc.1 ∈ l ∧ ∃ s f, rc.2 = (Some s, Some f, Some s, Some f))
          ∨ ((task rc.1 ∉ l) ∧ rc.2 = (None, None, None, None)))
          [(Row "A" "-" 1, (Some 0, Some 1, Some 0, Some 1));
           (Row "B" "X" 2, (None, None, None, None))].
Proof.
  assert (H : table_update dangling_input
    = Ok (Some [(Row "A" "-" 1, (Some 0, Some 1, Some 0, Some 1));
                (Row "B" "X" 2, (None, None, None, None))])).
  { vm_compute. reflexivity. }
  split; [exact H|].
  exact (table_update_cells dangling_input _ H).
Defined.


(** ** The request on the empty table, and on the others *)

(** On a non-empty table the first function is consulted: its exception is
    the outcome of the request, and nothing has been changed by then. *)
Lemma nonempty_request_consults_find find critical gantt d tasks e :
  tasks ≠ [] → find tasks = Raise e →
  on_calculate_and_draw_with find critical gantt d tasks = Redrawn d None (Raise e).
Proof.
  intros Hne Hf. destruct tasks as [|r tasks]; [done|].
  unfold on_calculate_and_draw_with. by rewrite Hf.
Qed.

(** [redraw] writes the cells of [table_update] and ends as
    [on_calculate_and_draw] does, the chart aside. *)
Lemma redraw_table_update d tasks rows :
  table_update tasks = Ok (Some rows) →
  r_cells (redraw d tasks) = Some rows.
Proof.
  unfold table_update, redraw, on_calculate_and_draw_with, on_calculate_and_draw.
  destruct tasks as [|r tasks]; [done|].
  destruct (find_earliest_latest_start_finish (r :: tasks)) as [sched| |];
    [|done|done].
  cbn [bind].
  destruct (calculate_critical_path (r :: tasks)) as [[cp total]| |];
    [|done|done].
  cbn [bind]. intros [= <-].
  by destruct (draw_gantt_chart (r :: tasks) cp).
Qed.

(** ** The functions on the cells of the table *)

Lemma read_row_cases py_int raw :
  (∃ r, read_row py_int raw = Ok r
        ∧ task r = raw_task raw ∧ depends r = raw_depends raw
        ∧ int_cell py_int (raw_duration raw) = Ok (duration r))
  ∨ (read_row py_int raw = Raise ValueError
     ∧ int_cell py_int (raw_duration raw) = Raise ValueError).
Proof.
  unfold read_row.
  destruct (int_cell py_int (raw_duration raw)) as [n|e|] eqn:Hc.
  - left. by eexists.
  - right. unfold int_cell in Hc. destruct (raw_duration raw) as [n|s]; [done|].
    destruct (py_int s); [done|]. by injection Hc as <-.
  - unfold int_cell in Hc. destruct (raw_duration raw) as [n|s]; [done|].
    by destruct (py_int s).
Qed.

(** Reading the table fails exactly on a cell that is no integer, and then
    with [ValueError]. *)
Lemma read_table_cases py_int table :
  (∃ tasks, read_table py_int table = Ok tasks ∧ ¬ bad_cell py_int table)
  ∨ (read_table py_int table = Raise ValueError ∧ bad_cell py_int table).
Proof.
  unfold read_table. induction table as [|raw table IH].
  - left. exists []. split; [done|]. intros (r & Hr & _). by apply elem_of_nil in Hr.
  - cbn [mapM]. destruct (read_row_cases py_int raw) as [(r & Hr & _ & _ & Hc)|[Hr Hc]].
    + rewrite Hr. cbn [bind]. destruct IH as [(tasks & Ht & Hnb)|[Ht Hb]].
      * left. exists (r :: tasks). rewrite Ht. split; [done|].
        intros (x & Hx & Hbad). apply elem_of_cons in Hx as [->|Hx].
        -- by rewrite Hc in Hbad.
        -- apply Hnb. by exists x.
      * right. rewrite Ht. split; [done|].
        destruct Hb as (x & Hx & Hbad). exists x. split; [by right|done].
    + right. rewrite Hr. split; [done|]. exists raw. split; [left|done].
Qed.

(** X6: whatever the table holds, [find_earliest_latest_start_finish]
    ends in one of three ways.  It raises [ValueError] exactly when some
    duration cell is no integer.  Otherwise it raises [KeyError] exactly
    when some ordered task has a successor that Kahn's loop left out, the
    key of the error being such a successor; and otherwise it returns four
    maps whose keys are the ordered tasks, the latest times equal to the
    earliest ones. *)
Theorem find_on_cells_outcomes py_int table :
  (bad_cell py_int table ∧ find_on_cells py_int table = Raise ValueError)
  ∨ (¬ bad_cell py_int table
     ∧ ∃ tasks l,
         read_table py_int table = Ok tasks
         ∧ topo_order (task_dict tasks) = Ok l
         ∧ ((∃ es ef,
               find_on_cells py_int table = Ok (es, ef, es, ef)
               ∧ (∀ t, t ∈ l ↔ is_Some (es !! t))
               ∧ (∀ t, t ∈ l ↔ is_Some (ef !! t))
               ∧ (∀ t k, t ∈ l → successor_of (task_dict tasks) t k → k ∈ l))
            ∨ (∃ t k,
               find_on_cells py_int table = Raise (KeyError k)
               ∧ t ∈ l ∧ successor_of (task_dict tasks) t k ∧ k ∉ l))).
Proof.
  unfold find_on_cells.
  destruct (read_table_cases py_int table) as [(tasks & Ht & Hnb)|[Ht Hb]].
  - right. split; [done|]. rewrite Ht. cbn [bind].
    destruct (find_outcomes_read tasks) as (l & Hl & Hcases).
    by exists tasks, l.
  - left. by rewrite Ht.
Qed.

(** X7: whatever the table holds, [calculate_critical_path] raises
    [ValueError] in exactly two cases: some duration cell is no integer
    ([int] fails), or every task of the table has at least one dependency,
    the empty table included ([max] of an empty sequence).  In the second
    case nothing is ordered and [find_earliest_latest_start_finish] returns
    four empty maps. *)
Theorem critical_path_on_cells_value_error py_int table :
  (critical_path_on_cells py_int table = Raise ValueError
   ↔ bad_cell py_int table
     ∨ ∃ tasks, read_table py_int table = Ok tasks
                ∧ ∀ t, t ∈ names tasks → deps (task_dict tasks) t ≠ [])
  ∧ (∀ tasks, read_table py_int table = Ok tasks →
       critical_path_on_cells py_int table = Raise ValueError →
       topo_order (task_dict tasks) = Ok []
       ∧ find_on_cells py_int table = Ok (∅, ∅, ∅, ∅)).
Proof.
  unfold critical_path_on_cells, find_on_cells.
  destruct (read_table_cases py_int table) as [(tasks & Ht & Hnb)|[Ht Hb]].
  - rewrite Ht. cbn [bind].
    destruct (critical_path_value_error_read tasks) as [Hiff Hempty]. split.
    + rewrite Hiff. split.
      * intros Hall. right. by exists tasks.
      * intros [Hb|(tasks' & [= <-] & Hall)]; [done|done].
    + intros tasks' [= <-]. apply Hempty.
  - rewrite Ht. split.
    + split; [by left|done].
    + intros tasks' Hf. done.
Qed.

(** X12: whatever the table holds, the bar computation of
    [draw_gantt_chart] raises nothing but the [ValueError] of a duration
    cell that is no integer; on every other table it yields one bar per
    row, in table order, named after the row and as long as the row's
    duration, and a row whose dependency cell is ["-"] starts at 0. *)
Theorem gantt_on_cells_outcomes py_int table :
  (bad_cell py_int table ∧ gantt_on_cells py_int table = Raise ValueError)
  ∨ (¬ bad_cell py_int table
     ∧ ∃ tasks bars,
         read_table py_int table = Ok tasks
         ∧ gantt_on_cells py_int table = Ok bars
         ∧ Forall2 (λ r b, bar_task b = task r
                           ∧ bar_finish b = bar_start b + duration r
                           ∧ (depends r = "-" → bar_start b = 0)) tasks bars).
Proof.
  unfold gantt_on_cells.
  destruct (read_table_cases py_int table) as [(tasks & Ht & Hnb)|[Ht Hb]].
  - right. split; [done|]. rewrite Ht. cbn [bind].
    destruct (gantt_data_Ok tasks) as (bars & Hbars & Hall).
    by exists tasks, bars.
  - left. by rewrite Ht.
Qed.

Example find_on_text_cell :
  find_on_cells (λ _, None) [RawRow "A" "-" (TextCell "abc")] = Raise ValueError
  ∧ critical_path_on_cells (λ _, None) [RawRow "A" "-" (TextCell "abc")]
    = Raise ValueError
  ∧ gantt_on_cells (λ _, None) [RawRow "A" "-" (TextCell "abc")]
    = Raise ValueError.
Proof. split_and!; reflexivity. Qed.

Example find_on_integer_cells :
  critical_path_on_cells (λ _, None)
    [RawRow "A" "-" (IntCell 3); RawRow "B" "-" (IntCell 5)] = Ok (["B"], 5).
Proof. vm_compute. reflexivity. Qed.
